(** * kornia.geometry.line: ParametrizedLine and fit_line

    A shallow embedding of [kornia/geometry/line.py].

    Tensors are nested lists indexed by their rank ([arr T r]); the scalar
    type [T] is an interface ([Scalar]) with two instances: the real numbers,
    on which the algebraic properties are proved (statements that hold
    "within floating tolerance" are read as exact equalities on reals), and
    IEEE binary64 floats, on which concrete calls are evaluated.

    The line operations are embedded on unbatched lines, where origin,
    direction and query point are 1-D tensors (the case the module's tests
    exercise), and [through], [projection] and [squared_distance] also on
    batched lines, where they are 2-D tensors of shape (B, D) (module
    [Batch]).  [dim] is embedded on tensors of any rank.  [fit_line] is
    embedded on arbitrary Python arguments, threading the list of tensor
    operations performed so far (the trace) and the raised exception, if any;
    it is followed through on points of rank 3 with weights of rank 2, and the
    decomposition [torch.linalg.svd] of the host library is a parameter. *)

From Stdlib Require Import String.
From Stdlib Require Import Floats.
From Stdlib Require Uint63.
From Stdlib Require Import Reals Lra Psatz.
From Stdlib Require Import List Bool Arith Lia ZArith.
Import ListNotations.

Set Implicit Arguments.

(* ------------------------------------------------------------------ *)
(** ** Scalars *)

(** The element type of a tensor, with the arithmetic the module uses. *)
Class Scalar (T : Type) : Type := {
  s_zero : T;
  s_add : T -> T -> T;
  s_sub : T -> T -> T;
  s_mul : T -> T -> T;
  s_div : T -> T -> T;
  s_sqrt : T -> T;
  (** [clamp_min x lo]: [x] when it is at least [lo], [lo] otherwise. *)
  s_clamp_min : T -> T -> T;
  (** the size of an axis as a scalar (the divisor of [mean]) *)
  s_of_nat : nat -> T;
  (** the literal [1e-12], the default [eps] of [normalize] *)
  s_eps : T
}.

#[export] Instance Scalar_R : Scalar R := {|
  s_zero := 0%R;
  s_add := Rplus;
  s_sub := Rminus;
  s_mul := Rmult;
  s_div := Rdiv;
  s_sqrt := R_sqrt.sqrt;
  s_clamp_min := Rmax;
  s_of_nat := INR;
  s_eps := (/ 1000000000000)%R
|}.

#[export] Instance Scalar_float : Scalar float := {|
  s_zero := 0%float;
  s_add := PrimFloat.add;
  s_sub := PrimFloat.sub;
  s_mul := PrimFloat.mul;
  s_div := PrimFloat.div;
  s_sqrt := PrimFloat.sqrt;
  s_clamp_min := fun x lo => if PrimFloat.ltb x lo then lo else x;
  s_of_nat := fun n => PrimFloat.of_uint63 (Uint63.of_Z (Z.of_nat n));
  s_eps := 0x1.19799812dea11p-40%float
|}.

(* ------------------------------------------------------------------ *)
(** ** Exceptions and results *)

Inductive exn : Type :=
| TypeError (msg : string)
| CheckError
| RuntimeError
| IndexError.

Inductive result (A : Type) : Type :=
| Ok (a : A)
| Raise (e : exn).

Arguments Ok {A} a.
Arguments Raise {A} e.

Definition rbind {A B : Type} (c : result A) (k : A -> result B) : result B :=
  match c with
  | Ok a => k a
  | Raise e => Raise e
  end.

Declare Scope result_scope.
Delimit Scope result_scope with result.
Notation "x <- c ;; k" := (rbind c (fun x => k))
  (at level 61, c at next level, right associativity) : result_scope.

(** [KORNIA_CHECK_IS_TENSOR] and [KORNIA_CHECK_SHAPE] raise [TypeError],
    [KORNIA_CHECK] raises a plain exception: these are the validation errors. *)
Definition is_validation_error (e : exn) : bool :=
  match e with
  | TypeError _ | CheckError => true
  | RuntimeError | IndexError => false
  end.

(* ------------------------------------------------------------------ *)
(** ** Tensors *)

(** A tensor of rank [r] with elements in [T]. *)
Fixpoint arr (T : Type) (r : nat) : Type :=
  match r with
  | 0 => T
  | S k => list (arr T k)
  end.

(** [x.shape].  An empty axis hides the sizes of the axes below it, which are
    then reported as 0. *)
Fixpoint shape (T : Type) (r : nat) : arr T r -> list nat :=
  match r with
  | 0 => fun _ => []
  | S k => fun l => length l :: match l with
                                | [] => repeat 0 k
                                | x :: _ => shape T k x
                                end
  end.

(** The nested list [a] is a rectangular tensor of shape [sh]. *)
Fixpoint has_shape (T : Type) (r : nat) (sh : list nat) : arr T r -> Prop :=
  match r with
  | 0 => fun _ => sh = []
  | S k => fun l => match sh with
                    | [] => False
                    | n :: sh' => length l = n /\ Forall (has_shape T k sh') l
                    end
  end.

(** [len(x)]: the size of the first axis; a 0-d tensor has no length. *)
Definition len (T : Type) (r : nat) : arr T r -> result nat :=
  match r with
  | 0 => fun _ => Raise (TypeError "len() of a 0-d tensor")
  | S _ => fun l => Ok (length l)
  end.

Fixpoint zip_with {A B C : Type} (f : A -> B -> C) (xs : list A) (ys : list B)
  : list C :=
  match xs, ys with
  | x :: xs', y :: ys' => f x y :: zip_with f xs' ys'
  | _, _ => []
  end.

Section Vectors.
Context {T : Type} `{Scalar T}.

Definition vsum (v : list T) : T := fold_right s_add s_zero v.

(** [x (op) y] on 1-D tensors, with broadcasting of an axis of size 1;
    other size mismatches raise. *)
Definition elementwise (f : T -> T -> T) (x y : list T) : result (list T) :=
  if length x =? length y then Ok (zip_with f x y)
  else match x, y with
       | [a], _ => Ok (map (f a) y)
       | _, [b] => Ok (map (fun a => f a b) x)
       | _, _ => Raise RuntimeError
       end.

(** [x @ y] and [torch.inner(x, y)] on 1-D tensors: the dot product, which
    needs equal sizes. *)
Definition inner (x y : list T) : result T :=
  if length x =? length y then Ok (vsum (zip_with s_mul x y))
  else Raise RuntimeError.

(** [s * x] for a 0-d tensor or Python float [s]. *)
Definition scale (s : T) (x : list T) : list T := map (s_mul s) x.

(** Modelled from the spec: [squared_norm] of [kornia.geometry.linalg] is not
    among the sources; it is the squared Euclidean norm along the last
    axis, [(x * x).sum(-1)]. *)
Definition squared_norm (x : list T) : T := vsum (zip_with s_mul x x).

(** The Euclidean norm [x.norm(2, -1)]. *)
Definition norm2 (x : list T) : T := s_sqrt (squared_norm x).

(** [normalize(x, p=2, dim=-1)], imported from [kornia.core], which
    re-exports the host library's [torch.nn.functional.normalize(input, p,
    dim, eps=1e-12)]: [x / x.norm(p, dim, keepdim=True).clamp_min(eps)]. *)
Definition normalize (x : list T) : list T :=
  let denom := s_clamp_min (norm2 x) s_eps in
  map (fun a => s_div a denom) x.

End Vectors.

(* ------------------------------------------------------------------ *)
(** ** ParametrizedLine *)

Record ParametrizedLine (T : Type) (r : nat) : Type := mkLine {
  origin : arr T r;
  direction : arr T r
}.

Arguments mkLine {T} r origin direction.
Arguments origin {T r} _.
Arguments direction {T r} _.

Section Line.
Context {T : Type} `{Scalar T}.
Local Open Scope result_scope.

(** [len(self.direction)] *)
Definition dim {r : nat} (self : ParametrizedLine T r) : result nat :=
  len T r (direction self).

(** [ParametrizedLine(p0, normalize((p1 - p0), p=2, dim=-1))] *)
Definition through (p0 p1 : arr T 1) : result (ParametrizedLine T 1) :=
  d <- elementwise s_sub p1 p0 ;;
  Ok (mkLine 1 p0 (normalize d)).

(** [self.origin + self.direction * t] *)
Definition point_at (self : ParametrizedLine T 1) (t : T) : result (arr T 1) :=
  elementwise s_add (origin self) (map (fun d => s_mul d t) (direction self)).

(** [self.origin + (self.direction @ (point - self.origin)) * self.direction] *)
Definition projection (self : ParametrizedLine T 1) (point : arr T 1)
  : result (arr T 1) :=
  diff <- elementwise s_sub point (origin self) ;;
  s <- inner (direction self) diff ;;
  elementwise s_add (origin self) (scale s (direction self)).

(** [diff = point - self.origin;
     squared_norm(torch.inner(diff - self.direction, diff) * self.direction)] *)
Definition squared_distance (self : ParametrizedLine T 1) (point : arr T 1)
  : result T :=
  diff <- elementwise s_sub point (origin self) ;;
  dd <- elementwise s_sub diff (direction self) ;;
  s <- inner dd diff ;;
  Ok (squared_norm (scale s (direction self))).

(** [self.squared_distance(point).sqrt()] *)
Definition distance (self : ParametrizedLine T 1) (point : arr T 1)
  : result T :=
  q <- squared_distance self point ;;
  Ok (s_sqrt q).

End Line.

(* ------------------------------------------------------------------ *)
(** ** Tensor operations of fit_line, with their trace *)

(** The tensor operations [fit_line] performs, in the order of the source. *)
Inductive op : Type :=
| OpMean
| OpSub
| OpTranspose
| OpDiagEmbed
| OpMatmul
| OpSvd
| OpSelect.

(** A computation that extends the trace of operations and returns or raises. *)
Definition M (A : Type) : Type := list op -> list op * result A.

Definition ret {A : Type} (a : A) : M A := fun tr => (tr, Ok a).

Definition raise {A : Type} (e : exn) : M A := fun tr => (tr, Raise e).

Definition bind {A B : Type} (c : M A) (k : A -> M B) : M B :=
  fun tr => match c tr with
            | (tr', Ok a) => k a tr'
            | (tr', Raise e) => (tr', Raise e)
            end.

Definition tick (o : op) : M unit := fun tr => (tr ++ [o], Ok tt).

(** A call from a fresh trace: the operations performed and the outcome. *)
Definition run {A : Type} (c : M A) : list op * result A := c [].

Declare Scope trace_scope.
Delimit Scope trace_scope with trace.
Notation "x <- c ;; k" := (bind c (fun x => k))
  (at level 61, c at next level, right associativity) : trace_scope.
Notation "c ;; k" := (bind c (fun _ => k))
  (at level 61, right associativity) : trace_scope.

(** A Python argument: a tensor of some rank, or any other object. *)
Inductive pyobj (T : Type) : Type :=
| PyTensor (r : nat) (a : arr T r)
| PyOther.

Arguments PyTensor {T} r a.
Arguments PyOther {T}.

Definition py_shape {T : Type} (x : pyobj T) : list nat :=
  match x with
  | PyTensor r a => shape T r a
  | PyOther => []
  end.

Fixpoint shape_eqb (s1 s2 : list nat) : bool :=
  match s1, s2 with
  | [], [] => true
  | a :: s1', b :: s2' => (a =? b) && shape_eqb s1' s2'
  | _, _ => false
  end.

Section Checks.
Context {T : Type}.

(** Modelled from the spec: the validation helpers of [kornia.testing] are
    not among the sources.  [KORNIA_CHECK_IS_TENSOR] rejects an argument
    that is not a tensor. *)
Definition KORNIA_CHECK_IS_TENSOR (x : pyobj T) (msg : string) : M unit :=
  match x with
  | PyTensor _ _ => ret tt
  | PyOther => raise (TypeError msg)
  end.

(** Modelled from the spec: [KORNIA_CHECK_SHAPE] of [kornia.testing] is not
    among the sources.  It rejects an argument that is not a tensor.  A name
    that is not a number, such as ["B"], stands for any size, and the rank of
    the tensor is not compared with the number of names: the repository's
    [test_fit_line2] calls [fit_line] on points of rank 2 under the names
    ["B"; "N"; "D"] and asserts on the tensor it returns.  Only such names
    occur in this module, so a tensor of any rank passes. *)
Definition KORNIA_CHECK_SHAPE (x : pyobj T) (names : list string) : M unit :=
  match x with
  | PyTensor _ _ => ret tt
  | PyOther => raise (TypeError "Not a Tensor type")
  end.

(** Modelled from the spec: [KORNIA_CHECK] raises when its condition is
    false. *)
Definition KORNIA_CHECK (condition : bool) : M unit :=
  if condition then ret tt else raise CheckError.

End Checks.

Section Batched.
Context {T : Type} `{Scalar T}.
Local Open Scope trace_scope.

(** The sum of the rows of a matrix (the sum along axis -2). *)
Definition col_sums (rows : arr T 2) : list T :=
  match rows with
  | [] => []
  | r :: rs => fold_left (zip_with s_add) rs r
  end.

(** The mean along axis -2 of one matrix, the axis kept with size 1. *)
Definition mean_rows (rows : arr T 2) : arr T 2 :=
  [map (fun s => s_div s (s_of_nat (length rows))) (col_sums rows)].

(** [x.mean(-2, True)] *)
Definition mean_m2 (x : arr T 3) : M (arr T 3) :=
  tick OpMean ;; ret (map mean_rows x).

(** [xs - ms] for matrices, a single row [ms] being broadcast. *)
Definition sub_rows (xs ms : arr T 2) : arr T 2 :=
  match ms with
  | [m] => map (fun x => zip_with s_sub x m) xs
  | _ => zip_with (zip_with s_sub) xs ms
  end.

(** [x - y] on batches of matrices *)
Definition tsub (x y : arr T 3) : M (arr T 3) :=
  tick OpSub ;; ret (zip_with sub_rows x y).

Definition column (j : nat) (m : arr T 2) : list T :=
  map (fun row => nth j row s_zero) m.

Definition mtranspose (m : arr T 2) : arr T 2 :=
  match m with
  | [] => []
  | r :: _ => map (fun j => column j m) (seq 0 (length r))
  end.

(** [x.transpose(-2, -1)] *)
Definition transpose (x : arr T 3) : M (arr T 3) :=
  tick OpTranspose ;; ret (map mtranspose x).

(** The diagonal matrix of a vector. *)
Definition diag (w : list T) : arr T 2 :=
  map (fun i => map (fun j => if i =? j then nth i w s_zero else s_zero)
                    (seq 0 (length w)))
      (seq 0 (length w)).

(** [torch.diag_embed(w)] on a batch of vectors *)
Definition diag_embed (w : arr T 2) : M (arr T 3) :=
  tick OpDiagEmbed ;; ret (map diag w).

(** The matrix product. *)
Definition mmul (a b : arr T 2) : arr T 2 :=
  map (fun row => map (fun col => vsum (zip_with s_mul row col)) (mtranspose b)) a.

(** Every row of [a] is as long as [b] has rows. *)
Definition mm_compatible (ab : arr T 2 * arr T 2) : bool :=
  forallb (fun row => length row =? length (snd ab)) (fst ab).

(** [x @ y] on batches of matrices of the same batch size; mismatched inner
    sizes raise. *)
Definition matmul (x y : arr T 3) : M (arr T 3) :=
  tick OpMatmul ;;
  if (length x =? length y) && forallb mm_compatible (combine x y)
  then ret (zip_with mmul x y)
  else raise RuntimeError.

(** [V[..., 0]]: the element of index 0 along the last axis, which must not
    be empty. *)
Definition select_last0 (V : arr T 3) : M (arr T 2) :=
  tick OpSelect ;;
  if forallb (forallb (fun row => negb (length row =? 0))) V
  then ret (map (map (fun row => hd s_zero row)) V)
  else raise IndexError.

(** [torch.linalg.svd], the decomposition of the host library: a batch of
    square matrices to [(U, S, Vh)], or the error it raises. *)
Variable linalg_svd : arr T 3 -> result (arr T 3 * arr T 2 * arr T 3).

Definition svd (A : arr T 3) : M (arr T 3 * arr T 2 * arr T 3) :=
  tick OpSvd ;;
  match linalg_svd A with
  | Ok USV => ret USV
  | Raise e => raise e
  end.

(** The rest of the body of [fit_line] on tensors outside the embedding:
    points of a rank other than 3, and weights of a rank other than 2 that
    pass the checks.  There the tensor library broadcasts or raises by rules
    that are not embedded; what it does is a parameter. *)
Variable other_ranks : pyobj T -> option (pyobj T) -> M (pyobj T).

Definition fit_line (points : pyobj T) (weights : option (pyobj T))
  : M (pyobj T) :=
  KORNIA_CHECK_IS_TENSOR points "points must be a tensor" ;;
  KORNIA_CHECK_SHAPE points ["B"; "N"; "D"]%string ;;
  match points with
  | PyTensor 3 pts =>
      points_mean <- mean_m2 pts ;;
      A <- tsub pts points_mean ;;
      (* lines 161 to 166, reached with the [A] of either branch *)
      let decompose := fun A : arr T 3 =>
        USV <- svd A ;;
        let V := snd USV in
        L <- select_last0 V ;;
        ret (PyTensor 2 L) in
      match weights with
      | Some w =>
          KORNIA_CHECK_IS_TENSOR w "weights must be a tensor" ;;
          KORNIA_CHECK_SHAPE w ["B"; "N"]%string ;;
          KORNIA_CHECK (shape_eqb (firstn 2 (shape T 3 pts))
                                  (firstn 2 (py_shape w))) ;;
          match w with
          | PyTensor 2 ws =>
              A <- (At <- transpose A ;;
                    W <- diag_embed ws ;;
                    AtW <- matmul At W ;;
                    matmul AtW A) ;;
              decompose A
          | _ => other_ranks points weights
          end
      | None =>
          A <- (At <- transpose A ;;
                matmul At A) ;;
          decompose A
      end
  | _ => other_ranks points weights
  end.

End Batched.

(* ------------------------------------------------------------------ *)
(** ** ParametrizedLine on batches *)

Section Tensors2.
Context {T : Type} `{Scalar T}.
Local Open Scope result_scope.

(** The results of a list of computations, or the first error. *)
Fixpoint all_ok {A : Type} (cs : list (result A)) : result (list A) :=
  match cs with
  | [] => Ok []
  | c :: cs' => x <- c ;; xs <- all_ok cs' ;; Ok (x :: xs)
  end.

(** [x (op) y] on 2-D tensors: the rows are paired, a first axis of size 1
    being broadcast, and each pair of rows is combined as 1-D tensors are. *)
Definition elementwise2 (f : T -> T -> T) (x y : arr T 2)
  : result (arr T 2) :=
  if length x =? length y then all_ok (zip_with (elementwise f) x y)
  else match x, y with
       | [a], _ => all_ok (map (elementwise f a) y)
       | _, [b] => all_ok (map (fun a => elementwise f a b) x)
       | _, _ => Raise RuntimeError
       end.

(** [x @ y] on 2-D tensors: the matrix product, which needs the rows of [x]
    to be as long as [y] has rows. *)
Definition matmul2 (x y : arr T 2) : result (arr T 2) :=
  if mm_compatible (x, y) then Ok (mmul x y) else Raise RuntimeError.

(** [torch.inner(x, y)] on 2-D tensors: the dot products of every row of [x]
    with every row of [y]. *)
Definition inner2 (x y : arr T 2) : result (arr T 2) :=
  all_ok (map (fun a => all_ok (map (inner a) y)) x).

End Tensors2.

Module Batch.
Section Methods.
Context {T : Type} `{Scalar T}.
Local Open Scope result_scope.

(** [ParametrizedLine(p0, normalize((p1 - p0), p=2, dim=-1))]: the rows of
    the difference are normalized. *)
Definition through (p0 p1 : arr T 2) : result (ParametrizedLine T 2) :=
  d <- elementwise2 s_sub p1 p0 ;;
  Ok (mkLine 2 p0 (map normalize d)).

(** [self.origin + (self.direction @ (point - self.origin)) * self.direction] *)
Definition projection (self : ParametrizedLine T 2) (point : arr T 2)
  : result (arr T 2) :=
  diff <- elementwise2 s_sub point (origin self) ;;
  s <- matmul2 (direction self) diff ;;
  sd <- elementwise2 s_mul s (direction self) ;;
  elementwise2 s_add (origin self) sd.

(** [diff = point - self.origin;
     squared_norm(torch.inner(diff - self.direction, diff) * self.direction)] *)
Definition squared_distance (self : ParametrizedLine T 2) (point : arr T 2)
  : result (arr T 1) :=
  diff <- elementwise2 s_sub point (origin self) ;;
  dd <- elementwise2 s_sub diff (direction self) ;;
  s <- inner2 dd diff ;;
  sd <- elementwise2 s_mul s (direction self) ;;
  Ok (map squared_norm sd).

End Methods.
End Batch.

(* ------------------------------------------------------------------ *)
(** ** Values and contracts used in the statements *)

Section Values.
Context {T : Type} `{Scalar T}.

(** An [n] by [m] matrix. *)
Definition mat (n m : nat) (a : arr T 2) : Prop :=
  length a = n /\ Forall (fun row => length row = m) a.

(** [points - points.mean(-2, True)] *)
Definition centered (pts : arr T 3) : arr T 3 :=
  zip_with sub_rows pts (map mean_rows pts).

(** [A.transpose(-2,-1) @ torch.diag_embed(weights) @ A] and
    [A.transpose(-2,-1) @ A] (lines 157 and 159), on the centered points
    [A]. *)
Definition scatter (A : arr T 3) (ws : option (arr T 2)) : M (arr T 3) :=
  (match ws with
   | Some w =>
       At <- transpose A ;;
       W <- diag_embed w ;;
       AtW <- matmul At W ;;
       matmul AtW A
   | None =>
       At <- transpose A ;;
       matmul At A
   end)%trace.

(** Lines 161 to 166: the decomposition and the selection [V[..., 0]]. *)
Definition decompose
    (linalg_svd : arr T 3 -> result (arr T 3 * arr T 2 * arr T 3))
    (A : arr T 3) : M (pyobj T) :=
  (USV <- svd linalg_svd A ;;
   L <- select_last0 (snd USV) ;;
   ret (PyTensor 2 L))%trace.

(** The body of [fit_line] after the centering (lines 153 to 166), on points
    [pts] of rank 3 and their centered points [A]. *)
Definition after_centering
    (linalg_svd : arr T 3 -> result (arr T 3 * arr T 2 * arr T 3))
    (other_ranks : pyobj T -> option (pyobj T) -> M (pyobj T))
    (pts A : arr T 3) (weights : option (pyobj T)) : M (pyobj T) :=
  (match weights with
   | Some w =>
       KORNIA_CHECK_IS_TENSOR w "weights must be a tensor" ;;
       KORNIA_CHECK_SHAPE w ["B"; "N"]%string ;;
       KORNIA_CHECK (shape_eqb (firstn 2 (shape T 3 pts))
                               (firstn 2 (py_shape w))) ;;
       match w with
       | PyTensor 2 ws => A' <- scatter A (Some ws) ;; decompose linalg_svd A'
       | _ => other_ranks (PyTensor 3 pts) weights
       end
   | None => A' <- scatter A None ;; decompose linalg_svd A'
   end)%trace.

(** The value [fit_line] decomposes: [At @ A], or [At @ diag(w) @ A] with
    weights [w]. *)
Definition scatter_matrix (pts : arr T 3) (ws : option (arr T 2)) : arr T 3 :=
  let A := centered pts in
  match ws with
  | Some w => zip_with mmul (zip_with mmul (map mtranspose A) (map diag w)) A
  | None => zip_with mmul (map mtranspose A) A
  end.

(** What a call returns once the scatter matrix [A] is built: the error of
    the decomposition, or [Vh[..., 0]], or the index error of an empty last
    axis. *)
Definition decompose_and_select
    (linalg_svd : arr T 3 -> result (arr T 3 * arr T 2 * arr T 3))
    (A : arr T 3) : result (pyobj T) :=
  match linalg_svd A with
  | Ok USV =>
      if forallb (forallb (fun row : list T => negb (length row =? 0))) (snd USV)
      then Ok (PyTensor 2 (map (map (hd s_zero)) (snd USV)))
      else Raise IndexError
  | Raise e => Raise e
  end.

(** The trace of a call of [fit_line] that returns. *)
Definition full_trace (weighted : bool) : list op :=
  if weighted
  then [OpMean; OpSub; OpTranspose; OpDiagEmbed; OpMatmul; OpMatmul; OpSvd; OpSelect]
  else [OpMean; OpSub; OpTranspose; OpMatmul; OpSvd; OpSelect].

(** The weights argument passes the checks: it is a tensor whose first two
    axes, [weights.shape[:2]], are those of [pts].  A tensor of rank 0 or 1
    has fewer than two axes and does not pass. *)
Definition weights_pass (pts : arr T 3) (w : pyobj T) : Prop :=
  match w with
  | PyTensor r a => firstn 2 (shape T r a) = firstn 2 (shape T 3 pts)
  | PyOther => False
  end.

End Values.

Section SvdContract.
Local Open Scope R_scope.

Definition identity (n : nat) : arr R 2 :=
  map (fun i => map (fun j => if (i =? j)%nat then 1 else 0) (seq 0 n)) (seq 0 n).

Fixpoint descending (s : list R) : Prop :=
  match s with
  | a :: (b :: _) as t => b <= a /\ descending t
  | _ => True
  end.

(** [(u, s, vh)] is a singular value decomposition of the square matrix
    [a]: [u] and [vh] are orthogonal, the singular values [s] are
    non-negative in descending order, and [a = u @ diag(s) @ vh]. *)
Definition is_svd (a u : arr R 2) (s : list R) (vh : arr R 2) : Prop :=
  let n := length a in
  mat n n u /\ length s = n /\ mat n n vh /\
  mmul (mtranspose u) u = identity n /\
  mmul vh (mtranspose vh) = identity n /\
  mmul (mtranspose vh) vh = identity n /\
  Forall (fun x => 0 <= x) s /\ descending s /\
  a = mmul (mmul u (diag s)) vh.

(** The contract of [torch.linalg.svd] on the batch [A]: one decomposition
    per matrix of the batch. *)
Definition svd_contract (A : arr R 3) (USV : arr R 3 * arr R 2 * arr R 3)
  : Prop :=
  let '(U, Sg, Vh) := USV in
  length U = length A /\ length Sg = length A /\ length Vh = length A /\
  forall b, (b < length A)%nat ->
            is_svd (nth b A []) (nth b U []) (nth b Sg []) (nth b Vh []).

End SvdContract.

(** The distances at which [normalize] neither clamps the norm nor
    overflows: from [eps = 1e-12] to [1e18], whose square is below the
    largest value of the float32 and float64 tensors. *)
Definition normalizable (x : list R) : Prop :=
  (s_eps <= norm2 x <= 10 ^ 18)%R.

(** A binary64 value that is not negative: NaN, or at least 0. *)
Definition nonneg_or_nan (v : float) : bool :=
  PrimFloat.is_nan v || PrimFloat.leb 0 v.

(** The same on the specification of binary64 values: NaN, or a zero, a
    finite value or an infinity whose sign bit is not set. *)
Definition sf_nonneg_or_nan (x : spec_float) : bool :=
  match x with
  | S754_nan => true
  | S754_zero s | S754_infinity s | S754_finite s _ _ => negb s
  end.

(* ------------------------------------------------------------------ *)
(** * Properties *)

(** ** Lists and shapes *)

Lemma zip_with_length {A B C : Type} (f : A -> B -> C) (xs : list A) (ys : list B) :
  length xs = length ys -> length (zip_with f xs ys) = length xs.
Proof.
  revert ys; induction xs as [|x xs IH]; intros [|y ys] Hl; simpl in *;
    try discriminate; auto.
Qed.

Lemma elementwise_same {T : Type} `{Scalar T} (f : T -> T -> T) (x y : list T) :
  length x = length y -> elementwise f x y = Ok (zip_with f x y).
Proof.
  intros Hl. unfold elementwise. rewrite Hl, Nat.eqb_refl. reflexivity.
Qed.

Lemma inner_same {T : Type} `{Scalar T} (x y : list T) :
  length x = length y -> inner x y = Ok (vsum (zip_with s_mul x y)).
Proof.
  intros Hl. unfold inner. rewrite Hl, Nat.eqb_refl. reflexivity.
Qed.

Lemma elementwise_raise {T : Type} `{Scalar T} (f : T -> T -> T) (x y : list T)
    (e : exn) :
  elementwise f x y = Raise e -> e = RuntimeError.
Proof.
  unfold elementwise. destruct (length x =? length y); [discriminate|].
  destruct x as [|? [|? ?]]; destruct y as [|? [|? ?]]; simpl; congruence.
Qed.

Lemma inner_raise {T : Type} `{Scalar T} (x y : list T) (e : exn) :
  inner x y = Raise e -> e = RuntimeError.
Proof.
  unfold inner. destruct (length x =? length y); congruence.
Qed.

Lemma all_ok_raise {A : Type} (cs : list (result A)) (e : exn) :
  all_ok cs = Raise e -> In (Raise e) cs.
Proof.
  induction cs as [|c cs IH]; simpl; [discriminate|].
  destruct c as [x|e']; simpl.
  - destruct (all_ok cs) as [xs|e'']; simpl; [discriminate|].
    intros E. right. apply IH. exact E.
  - intros E. left. injection E as ->. reflexivity.
Qed.

Lemma In_zip_with {A B C : Type} (f : A -> B -> C) (xs : list A) (ys : list B)
    (c : C) :
  In c (zip_with f xs ys) -> exists a b, c = f a b.
Proof.
  revert ys. induction xs as [|x xs IH]; intros [|y ys]; simpl;
    try contradiction.
  intros [E|Hin]; [exists x, y; symmetry; exact E | exact (IH ys Hin)].
Qed.

Lemma elementwise2_raise {T : Type} `{Scalar T} (f : T -> T -> T)
    (x y : arr T 2) (e : exn) :
  elementwise2 f x y = Raise e -> e = RuntimeError.
Proof.
  assert (Hz : forall xs ys : arr T 2,
             all_ok (zip_with (elementwise f) xs ys) = Raise e ->
             e = RuntimeError).
  { intros xs ys E. apply all_ok_raise, In_zip_with in E.
    destruct E as (a & b & E). symmetry in E.
    exact (elementwise_raise _ _ _ E). }
  assert (Hm : forall (g : list T -> result (list T)) (xs : arr T 2),
             (forall a, g a = Raise e -> e = RuntimeError) ->
             all_ok (map g xs) = Raise e -> e = RuntimeError).
  { intros g xs Hg E. apply all_ok_raise, in_map_iff in E.
    destruct E as (a & E & _). exact (Hg a E). }
  unfold elementwise2. destruct (length x =? length y); [apply Hz|].
  destruct x as [|a [|a' x]]; destruct y as [|b [|b' y]];
    try (intros E; congruence);
    try (apply Hm; intros c; apply elementwise_raise).
Qed.

Lemma inner2_raise {T : Type} `{Scalar T} (x y : arr T 2) (e : exn) :
  inner2 x y = Raise e -> e = RuntimeError.
Proof.
  unfold inner2. intros E. apply all_ok_raise, in_map_iff in E.
  destruct E as (a & E & _). apply all_ok_raise, in_map_iff in E.
  destruct E as (b & E & _). exact (inner_raise _ _ E).
Qed.

(** On two tensors of one shape (b, d) the operation is applied entry by
    entry. *)
Lemma elementwise2_same {T : Type} `{Scalar T} (f : T -> T -> T) (b d : nat)
    (x y : arr T 2) :
  mat b d x -> mat b d y ->
  elementwise2 f x y = Ok (zip_with (zip_with f) x y).
Proof.
  intros [Hlx Hx] [Hly Hy]. unfold elementwise2.
  replace (length x =? length y) with true
    by (symmetry; apply Nat.eqb_eq; transitivity b; [exact Hlx | symmetry; exact Hly]).
  clear Hlx Hly. revert y Hy.
  induction Hx as [|r x Hr Hx IH]; intros [|q y] Hy; try reflexivity.
  apply Forall_cons_iff in Hy as [Hq Hy].
  cbn [zip_with all_ok].
  rewrite elementwise_same by (transitivity d; [exact Hr | symmetry; exact Hq]).
  cbn [rbind]. rewrite (IH y Hy). reflexivity.
Qed.

(** ** Vectors of real numbers *)

(** Reads the operations of the [Scalar] interface at [R] as the operations
    of the real numbers. *)
Ltac real_ops :=
  change (@s_zero R Scalar_R) with 0%R in *;
  change (@s_add R Scalar_R) with Rplus in *;
  change (@s_sub R Scalar_R) with Rminus in *;
  change (@s_mul R Scalar_R) with Rmult in *;
  change (@s_div R Scalar_R) with Rdiv in *;
  change (@s_sqrt R Scalar_R) with R_sqrt.sqrt in *;
  change (@s_clamp_min R Scalar_R) with Rmax in *;
  change (@s_of_nat R Scalar_R) with INR in *;
  change (@s_eps R Scalar_R) with (/ 1000000000000)%R in *.

Section RealVectors.
Local Open Scope R_scope.

Lemma squared_norm_nonneg (x : list R) : 0 <= squared_norm x.
Proof.
  unfold squared_norm. induction x as [|a x IH]; simpl; real_ops.
  - lra.
  - nra.
Qed.

Lemma squared_norm_scale (s : R) (d : list R) :
  squared_norm (scale s d) = s * s * squared_norm d.
Proof.
  unfold squared_norm, scale. induction d as [|a d IH]; simpl; real_ops.
  - lra.
  - rewrite IH. ring.
Qed.

Lemma inner_scale_r (s : R) (d e : list R) :
  vsum (zip_with Rmult d (scale s e)) = s * vsum (zip_with Rmult d e).
Proof.
  unfold scale. revert e; induction d as [|a d IH]; intros [|b e]; simpl;
    real_ops; try lra.
  rewrite IH. ring.
Qed.

Lemma add_sub_cancel (o v : list R) :
  length v = length o ->
  zip_with Rminus (zip_with Rplus o v) o = v.
Proof.
  revert v; induction o as [|a o IH]; intros [|b v] Hl; simpl in *;
    try discriminate; auto.
  f_equal; [ring | apply IH; lia].
Qed.

Lemma sub_self (p : list R) : zip_with Rminus p p = map (fun _ => 0) p.
Proof.
  induction p as [|a p IH]; simpl; auto. f_equal; [ring | exact IH].
Qed.

Lemma squared_norm_zeros {A : Type} (p : list A) :
  squared_norm (map (fun _ => 0) p) = 0.
Proof.
  unfold squared_norm. induction p as [|a p IH]; simpl; real_ops; auto.
  rewrite IH. ring.
Qed.

Lemma unit_norm_squared (d : list R) : norm2 d = 1 -> squared_norm d = 1.
Proof.
  unfold norm2; real_ops. intros Hn.
  rewrite <- (sqrt_sqrt (squared_norm d)) by apply squared_norm_nonneg.
  rewrite Hn. ring.
Qed.

Lemma squared_norm_div (n : R) (d : list R) :
  n <> 0 ->
  squared_norm (map (fun a => a / n) d) = squared_norm d / (n * n).
Proof.
  intros Hn. unfold squared_norm. induction d as [|a d IH]; simpl; real_ops.
  - field. exact Hn.
  - rewrite IH. field. exact Hn.
Qed.

End RealVectors.

(** ** ParametrizedLine on real vectors *)

Section RealLine.
Local Open Scope R_scope.

(** On a line and a point of one size, [projection] returns
    [origin + (direction . (point - origin)) * direction]. *)
Lemma projection_value (l : ParametrizedLine R 1) (p : list R) :
  length (direction l) = length (origin l) ->
  length p = length (origin l) ->
  projection l p =
    Ok (zip_with Rplus (origin l)
          (scale (vsum (zip_with Rmult (direction l)
                                 (zip_with Rminus p (origin l))))
                 (direction l))).
Proof.
  intros Hd Hp. unfold projection.
  rewrite (elementwise_same _ _ _ Hp). simpl.
  rewrite inner_same by (rewrite zip_with_length; congruence). simpl.
  rewrite elementwise_same by (unfold scale; rewrite length_map; congruence).
  reflexivity.
Qed.

(** A point [origin + c * direction] of a line with a unit direction is its
    own projection. *)
Lemma projection_fixes_line (l : ParametrizedLine R 1) (c : R) :
  length (direction l) = length (origin l) ->
  squared_norm (direction l) = 1 ->
  projection l (zip_with Rplus (origin l) (scale c (direction l))) =
    Ok (zip_with Rplus (origin l) (scale c (direction l))).
Proof.
  intros Hd Hu.
  assert (Hs : length (scale c (direction l)) = length (origin l))
    by (unfold scale; rewrite length_map; exact Hd).
  rewrite projection_value;
    [| exact Hd | rewrite zip_with_length; congruence].
  rewrite (add_sub_cancel _ _ Hs), inner_scale_r.
  unfold squared_norm in Hu; real_ops. rewrite Hu, Rmult_1_r. reflexivity.
Qed.

Lemma point_at_value (l : ParametrizedLine R 1) (t : R) :
  length (direction l) = length (origin l) ->
  point_at l t = Ok (zip_with Rplus (origin l) (scale t (direction l))).
Proof.
  intros Hd. unfold point_at.
  rewrite elementwise_same by (rewrite length_map; congruence).
  simpl. do 2 f_equal. unfold scale. apply map_ext. intros a; real_ops; ring.
Qed.

(** X12: on an unbatched line of real vectors with a unit-norm direction,
    the projection of any point is a fixed point of [projection] (projecting
    twice equals projecting once), and every point [point_at t] of the line
    is returned unchanged. *)
Theorem projection_idempotent (l : ParametrizedLine R 1) (p : list R) :
  length (direction l) = length (origin l) ->
  length p = length (origin l) ->
  norm2 (direction l) = 1 ->
  (exists q, projection l p = Ok q /\ projection l q = Ok q) /\
  (forall t, exists q, point_at l t = Ok q /\ projection l q = Ok q).
Proof.
  intros Hd Hp Hn. apply unit_norm_squared in Hn. split.
  - eexists. split.
    + apply projection_value; assumption.
    + apply projection_fixes_line; assumption.
  - intros t. eexists. split.
    + apply point_at_value; assumption.
    + apply projection_fixes_line; assumption.
Qed.

Lemma projection_idempotent_witness :
  let l := mkLine 1 [0; 0] [1; 0] in
  (exists q, projection l [/ 2; / 2] = Ok q /\ projection l q = Ok q) /\
  (forall t, exists q, point_at l t = Ok q /\ projection l q = Ok q).
Proof.
  apply (projection_idempotent (mkLine 1 [0; 0] [1; 0]) [/ 2; / 2]).
  - reflexivity.
  - reflexivity.
  - unfold norm2, squared_norm; simpl; real_ops.
    replace (1 * 1 + (0 * 0 + 0)) with 1 by ring. apply sqrt_1.
Defined.

(** [squared_distance] as the source computes it:
    [((diff - direction) . diff)^2 * |direction|^2]. *)
Lemma squared_distance_value (l : ParametrizedLine R 1) (p : list R) :
  length (direction l) = length (origin l) ->
  length p = length (origin l) ->
  squared_distance l p =
    Ok (let diff := zip_with Rminus p (origin l) in
        let s := vsum (zip_with Rmult (zip_with Rminus diff (direction l)) diff) in
        s * s * squared_norm (direction l)).
Proof.
  intros Hd Hp. unfold squared_distance.
  rewrite (elementwise_same _ _ _ Hp). simpl.
  assert (Hdiff : length (zip_with s_sub p (origin l)) = length (direction l))
    by (rewrite zip_with_length; congruence).
  rewrite (elementwise_same _ _ _ Hdiff). simpl.
  rewrite inner_same by (apply zip_with_length; exact Hdiff). simpl.
  rewrite squared_norm_scale. reflexivity.
Qed.

(** X13: in exact arithmetic, on an unbatched line of real vectors and
    whatever the norm of the direction, [squared_distance] returns a value
    that is at least 0; it returns a value whenever line and point have one
    size, and otherwise can only raise the size mismatch of the tensor
    operations. *)
Theorem squared_distance_nonneg (l : ParametrizedLine R 1) (p : list R) :
  match squared_distance l p with
  | Ok v => 0 <= v
  | Raise e => e = RuntimeError
  end /\
  (length (direction l) = length (origin l) ->
   length p = length (origin l) ->
   exists v, squared_distance l p = Ok v /\ 0 <= v).
Proof.
  split.
  - destruct l as [o d]. unfold squared_distance; simpl; real_ops.
    destruct (elementwise Rminus p o) as [diff|e] eqn:E1; simpl;
      [| exact (elementwise_raise _ _ _ E1)].
    destruct (elementwise Rminus diff d) as [dd|e] eqn:E2; simpl;
      [| exact (elementwise_raise _ _ _ E2)].
    unfold inner. destruct (length dd =? length diff); simpl.
    + apply squared_norm_nonneg.
    + reflexivity.
  - intros Hd Hp. eexists. split.
    + apply squared_distance_value; assumption.
    + cbv zeta. pose proof (squared_norm_nonneg (direction l)). nra.
Qed.

End RealLine.

Section RealThrough.
Local Open Scope R_scope.

(** Away from the clamp, [normalize] divides by the norm and returns a
    vector of norm 1. *)
Lemma normalize_unit (d : list R) :
  s_eps <= norm2 d ->
  normalize d = map (fun a => a / norm2 d) d /\ norm2 (normalize d) = 1.
Proof.
  intros Hn; real_ops.
  assert (Hd : normalize d = map (fun a => a / norm2 d) d).
  { unfold normalize; real_ops. rewrite Rmax_left by exact Hn. reflexivity. }
  split; [exact Hd|]. rewrite Hd.
  assert (Hpos : 0 < norm2 d) by lra.
  unfold norm2 at 1; real_ops.
  rewrite squared_norm_div by lra.
  assert (Hq : squared_norm d <> 0).
  { intros Hz. unfold norm2 in Hpos; real_ops.
    rewrite Hz, sqrt_0 in Hpos. lra. }
  unfold norm2; real_ops.
  rewrite sqrt_sqrt by apply squared_norm_nonneg.
  replace (squared_norm d / squared_norm d) with 1 by (field; exact Hq).
  apply sqrt_1.
Qed.

(** C7 (amended): for points of one size whose distance is at least
    [eps = 1e-12] (the clamp of [normalize]) and at most [1e18] (far beyond,
    the squared norm overflows), [through] returns the line of origin [p0]
    whose direction is [(p1 - p0) / |p1 - p0|], of norm 1; on batches of
    points of shape (b, d) it does so row by row. *)
Theorem through_unit_direction :
  (forall p0 p1 : arr R 1,
     length p0 = length p1 ->
     normalizable (zip_with Rminus p1 p0) ->
     exists l, through p0 p1 = Ok l /\
               origin l = p0 /\
               direction l = map (fun a => a / norm2 (zip_with Rminus p1 p0))
                                 (zip_with Rminus p1 p0) /\
               norm2 (direction l) = 1) /\
  (forall (b d : nat) (p0 p1 : arr R 2),
     mat b d p0 -> mat b d p1 ->
     Forall normalizable (zip_with (zip_with Rminus) p1 p0) ->
     exists l, Batch.through p0 p1 = Ok l /\
               origin l = p0 /\
               direction l = map (fun x => map (fun a => a / norm2 x) x)
                                 (zip_with (zip_with Rminus) p1 p0) /\
               Forall (fun x => norm2 x = 1) (direction l)).
Proof.
  split.
  - intros p0 p1 Hl [Hn _]. unfold through.
    rewrite elementwise_same by congruence.
    destruct (normalize_unit _ Hn) as [Hd Hu].
    eexists. split; [reflexivity|]. cbn [origin direction]; real_ops.
    split; [reflexivity|]. split; [exact Hd | exact Hu].
  - intros b d p0 p1 H0 H1 Hn. unfold Batch.through.
    rewrite (elementwise2_same _ H1 H0). cbn [rbind]; real_ops.
    eexists. split; [reflexivity|]. cbn [origin direction].
    split; [reflexivity|]. split.
    + apply map_ext_in. intros x Hx.
      rewrite Forall_forall in Hn. destruct (Hn x Hx) as [Hlo _].
      exact (proj1 (normalize_unit _ Hlo)).
    + apply Forall_map. eapply Forall_impl; [| exact Hn].
      intros x [Hlo _]. exact (proj2 (normalize_unit _ Hlo)).
Qed.

Lemma unit_step_normalizable : normalizable [1 - 0; 0 - 0].
Proof.
  assert (Hn : norm2 [1 - 0; 0 - 0] = 1).
  { unfold norm2, squared_norm; simpl; real_ops.
    replace ((1 - 0) * (1 - 0) + ((0 - 0) * (0 - 0) + 0)) with 1 by ring.
    apply sqrt_1. }
  unfold normalizable. rewrite Hn.
  split; [real_ops; lra | apply pow_R1_Rle; lra].
Qed.

Lemma through_unit_direction_witness :
  (exists l, through [0; 0] [1; 0] = Ok l /\
             origin l = [0; 0] /\
             direction l = map (fun a => a / norm2 (zip_with Rminus [1; 0] [0; 0]))
                               (zip_with Rminus [1; 0] [0; 0]) /\
             norm2 (direction l) = 1) /\
  (exists l, Batch.through [[0; 0]; [5; 7]] [[1; 0]; [6; 7]] = Ok l /\
             origin l = [[0; 0]; [5; 7]] /\
             direction l = map (fun x => map (fun a => a / norm2 x) x)
                               (zip_with (zip_with Rminus)
                                  [[1; 0]; [6; 7]] [[0; 0]; [5; 7]]) /\
             Forall (fun x => norm2 x = 1) (direction l)).
Proof.
  split.
  - apply (proj1 through_unit_direction [0; 0] [1; 0]).
    + reflexivity.
    + exact unit_step_normalizable.
  - apply (proj2 through_unit_direction 2%nat 2%nat
             [[0; 0]; [5; 7]] [[1; 0]; [6; 7]]).
    + split; [reflexivity | repeat constructor].
    + split; [reflexivity | repeat constructor].
    + cbn [zip_with]. constructor; [exact unit_step_normalizable|].
      constructor; [| constructor].
      replace (6 - 5) with (1 - 0) by ring.
      replace (7 - 7) with (0 - 0) by ring.
      exact unit_step_normalizable.
Defined.

(** C7 (counterexample): two distinct points closer than [eps] give a
    direction of norm 1/10. *)
Lemma through_close_points_not_unit :
  [0; 0] <> [/ 10000000000000; 0] /\
  through [0; 0] [/ 10000000000000; 0] = Ok (mkLine 1 [0; 0] [/ 10; 0]) /\
  norm2 [/ 10; 0] = / 10 /\
  / 10 <> 1.
Proof.
  assert (Hs : forall x, 0 <= x -> R_sqrt.sqrt (x * x + (0 * 0 + 0)) = x).
  { intros x Hx. replace (x * x + (0 * 0 + 0)) with (x * x) by ring.
    apply sqrt_square; exact Hx. }
  split; [| split; [| split]].
  - intros E. injection E as E. lra.
  - unfold through, elementwise, normalize, norm2, squared_norm.
    cbn [length Nat.eqb zip_with rbind map vsum fold_right]; real_ops.
    replace (/ 10000000000000 - 0) with (/ 10000000000000) by ring.
    replace (0 - 0) with 0 by ring.
    rewrite Hs by lra. rewrite Rmax_right by lra.
    do 3 f_equal; [field | f_equal; field].
  - unfold norm2, squared_norm.
    cbn [zip_with vsum fold_right]; real_ops. apply Hs; lra.
  - lra.
Qed.

(** On equal points the difference is the zero vector, which [normalize]
    leaves unchanged. *)
Lemma through_zero_direction (p0 : list R) :
  through p0 p0 = Ok (mkLine 1 p0 (map (fun _ => 0) p0)).
Proof.
  unfold through. rewrite elementwise_same by reflexivity. simpl; real_ops.
  rewrite sub_self. do 2 f_equal.
  unfold normalize, norm2; real_ops. rewrite squared_norm_zeros, sqrt_0.
  rewrite map_map. apply map_ext. intros _. unfold Rdiv. ring.
Qed.

(** C4 (amended): [through] does not fail on equal points; it returns the
    line of origin [p0] whose direction is the zero vector, of norm 0, as
    [normalize] divides by [max(norm, eps)]. *)
Theorem through_same_point (p0 : list R) :
  through p0 p0 = Ok (mkLine 1 p0 (map (fun _ => 0) p0)) /\
  norm2 (map (fun _ : R => 0) p0) = 0.
Proof.
  split; [apply through_zero_direction|].
  unfold norm2; real_ops. rewrite squared_norm_zeros. apply sqrt_0.
Qed.

End RealThrough.

(** The same two close points on binary64 floats: the direction is
    (0.1, 0). *)
Lemma through_close_points_on_floats :
  through (T := float) [0; 0]%float [0x1.c25c268497682p-44; 0]%float
    = Ok (mkLine 1 [0; 0]%float [0x1.999999999999ap-4; 0]%float).
Proof. vm_compute. reflexivity. Qed.

(** Two points at distance about 1.4e200 on binary64 floats: the squared
    norm of the difference overflows to infinity and the direction is
    (0, 0), of norm 0.  At the distances 1e-12 and 1e18 the direction is
    (1, 0). *)
Lemma through_far_points_on_floats :
  through (T := float) [0; 0]%float
          [0x1.4e718d7d7625ap+664; 0x1.4e718d7d7625ap+664]%float
    = Ok (mkLine 1 [0; 0]%float [0; 0]%float) /\
  norm2 [0; 0]%float = 0%float /\
  through (T := float) [0; 0]%float [0x1.19799812dea11p-40; 0]%float
    = Ok (mkLine 1 [0; 0]%float [1; 0]%float) /\
  through (T := float) [0; 0]%float [0x1.bc16d674ec8p+59; 0]%float
    = Ok (mkLine 1 [0; 0]%float [1; 0]%float).
Proof. repeat split; vm_compute; reflexivity. Qed.

(** C4 (counterexample): on binary64 floats [through] of two equal points
    returns, without raising, the direction [[0; 0]], whose entries are
    finite; so it does on real numbers. *)
Lemma through_same_point_is_finite :
  through (T := float) [0; 0]%float [0; 0]%float
    = Ok (mkLine 1 [0; 0]%float [0; 0]%float) /\
  forallb PrimFloat.is_finite [0; 0]%float = true /\
  through (T := R) [0; 0]%R [0; 0]%R = Ok (mkLine 1 [0; 0]%R [0; 0]%R).
Proof.
  split; [vm_compute; reflexivity |].
  split; [vm_compute; reflexivity |].
  apply (through_zero_direction [0; 0]%R).
Qed.

Section SquaredDistance.
Local Open Scope R_scope.

(** On a line with a unit direction, the source's formula evaluates to
    [(|diff|^2 - direction . diff)^2]: at [point_at t] this is
    [(t * (t - 1))^2], not 0. *)
Lemma squared_distance_point_at (l : ParametrizedLine R 1) (t : R) :
  length (direction l) = length (origin l) ->
  norm2 (direction l) = 1 ->
  exists q, point_at l t = Ok q /\
            squared_distance l q = Ok ((t * (t - 1)) * (t * (t - 1))).
Proof.
  intros Hd Hn. apply unit_norm_squared in Hn.
  eexists. split; [apply point_at_value; exact Hd|].
  assert (Hs : length (scale t (direction l)) = length (origin l))
    by (unfold scale; rewrite length_map; exact Hd).
  rewrite squared_distance_value;
    [| exact Hd | rewrite zip_with_length; congruence].
  cbv zeta. rewrite (add_sub_cancel _ _ Hs), Hn. f_equal.
  assert (Hi : vsum (zip_with Rmult (zip_with Rminus (scale t (direction l))
                                              (direction l))
                              (scale t (direction l)))
               = t * (t - 1) * squared_norm (direction l)).
  { unfold squared_norm, scale. clear. induction (direction l) as [|a d IH];
      simpl; real_ops; [ring | rewrite IH; ring]. }
  rewrite Hi, Hn. ring.
Qed.

(** C2: the source's [squared_distance] is not the squared distance to the
    projection.  On the line of origin (0,0) and unit direction (1,0): the
    point [point_at 2 = (2,0)] of the line is at squared distance 4 and
    distance 2, and the point (1/2,1/2), whose projection (1/2,0) lies at
    squared distance 1/4, is at squared distance 0. *)
Theorem squared_distance_is_not_residual :
  let l := mkLine 1 [0; 0] [1; 0] in
  norm2 (direction l) = 1 /\
  point_at l 2 = Ok [2; 0] /\
  squared_distance l [2; 0] = Ok 4 /\
  distance l [2; 0] = Ok 2 /\
  projection l [/ 2; / 2] = Ok [/ 2; 0] /\
  squared_norm (zip_with Rminus [/ 2; / 2] [/ 2; 0]) = / 4 /\
  squared_distance l [/ 2; / 2] = Ok 0.
Proof.
  cbv zeta.
  assert (Hq : squared_distance (mkLine 1 [0; 0] [1; 0]) [2; 0] = Ok 4).
  { rewrite squared_distance_value by reflexivity.
    unfold squared_norm; simpl; real_ops. f_equal; ring. }
  repeat split.
  - unfold norm2, squared_norm; simpl; real_ops.
    replace (1 * 1 + (0 * 0 + 0)) with 1 by ring. apply sqrt_1.
  - rewrite point_at_value by reflexivity.
    unfold scale; simpl; real_ops. repeat f_equal; ring.
  - exact Hq.
  - unfold distance. rewrite Hq. simpl; real_ops. f_equal.
    replace 4 with (2 * 2) by ring. apply sqrt_square; lra.
  - rewrite projection_value by reflexivity.
    unfold scale; simpl; real_ops. repeat f_equal; field.
  - unfold squared_norm; simpl; real_ops. field.
  - rewrite squared_distance_value by reflexivity.
    unfold squared_norm; simpl; real_ops. f_equal; field.
Qed.

End SquaredDistance.

(** The same calls on binary64 floats. *)
Lemma squared_distance_on_floats :
  let l := mkLine 1 [0; 0]%float [1; 0]%float in
  point_at l 2%float = Ok [2; 0]%float /\
  squared_distance l [2; 0]%float = Ok 4%float /\
  squared_distance l [0.5; 0.5]%float = Ok 0%float.
Proof. repeat split; vm_compute; reflexivity. Qed.

(** ** squared_distance on binary64 floats *)

Section FloatSign.

(** Rounding keeps the sign. *)
Lemma binary_round_aux_sign (prec emax m e : Z) (l : location) :
  sf_nonneg_or_nan (binary_round_aux prec emax false m e l) = true.
Proof.
  unfold binary_round_aux.
  destruct (shr_fexp prec emax m e l) as [mrs' e'].
  destruct (shr_fexp prec emax _ e' loc_Exact) as [mrs'' e''].
  destruct (shr_m mrs'') as [|q|q]; [reflexivity | | reflexivity].
  destruct (Z.leb e'' (Z.sub emax prec)); reflexivity.
Qed.

(** A square is NaN (infinity times zero does not occur in a square; the
    square of NaN is NaN) or has no sign bit. *)
Lemma SFmul_square_sign (prec emax : Z) (x : spec_float) :
  sf_nonneg_or_nan (SFmul prec emax x x) = true.
Proof.
  destruct x as [s|s| |s m e]; simpl; try rewrite xorb_nilpotent;
    try reflexivity.
  apply binary_round_aux_sign.
Qed.

Lemma SFadd_sign (prec emax : Z) (x y : spec_float) :
  sf_nonneg_or_nan x = true -> sf_nonneg_or_nan y = true ->
  sf_nonneg_or_nan (SFadd prec emax x y) = true.
Proof.
  destruct x as [[|]|[|]| |[|] mx ex]; destruct y as [[|]|[|]| |[|] my ey];
    simpl; intros Hx Hy; try discriminate; try reflexivity.
  change (sf_nonneg_or_nan
            (binary_round prec emax false
               (Pos.add (fst (shl_align mx ex (Z.min ex ey)))
                        (fst (shl_align my ey (Z.min ex ey))))
               (Z.min ex ey)) = true).
  unfold binary_round. destruct (shl_align _ _ _) as [mz ez].
  apply binary_round_aux_sign.
Qed.

Lemma nonneg_or_nan_spec (v : float) :
  sf_nonneg_or_nan (Prim2SF v) = true -> nonneg_or_nan v = true.
Proof.
  unfold nonneg_or_nan, PrimFloat.is_nan.
  rewrite FloatAxioms.eqb_spec, leb_spec.
  change (Prim2SF 0) with (S754_zero false).
  destruct (Prim2SF v) as [[|]|[|]| |[|] m e]; simpl; intros Hs;
    try discriminate; try reflexivity.
  apply orb_true_r.
Qed.

(** The squared norm of a vector of floats, a sum of squares from 0, is NaN
    or at least 0. *)
Lemma squared_norm_nonneg_or_nan (v : list float) :
  nonneg_or_nan (squared_norm v) = true.
Proof.
  apply nonneg_or_nan_spec.
  unfold squared_norm. induction v as [|a v IH]; [reflexivity|].
  cbn [zip_with vsum fold_right].
  change (@s_add float Scalar_float) with PrimFloat.add.
  change (@s_mul float Scalar_float) with PrimFloat.mul.
  rewrite add_spec, mul_spec.
  apply SFadd_sign; [apply SFmul_square_sign | exact IH].
Qed.

End FloatSign.

(** C8 (amended): on binary64 floats [squared_distance] never returns a
    negative value: the value is at least 0 or NaN, whatever the norm of the
    direction.  On an unbatched line it returns such a value whenever line
    and point have one size; on unbatched and on batched lines a call that
    does not return can only raise the size mismatch of the tensor
    operations. *)
Theorem squared_distance_never_negative :
  (forall (l : ParametrizedLine float 1) (p : arr float 1),
     match squared_distance l p with
     | Ok v => nonneg_or_nan v = true
     | Raise e => e = RuntimeError
     end) /\
  (forall (l : ParametrizedLine float 1) (p : arr float 1),
     length (direction l) = length (origin l) ->
     length p = length (origin l) ->
     exists v, squared_distance l p = Ok v /\ nonneg_or_nan v = true) /\
  (forall (l : ParametrizedLine float 2) (p : arr float 2),
     match Batch.squared_distance l p with
     | Ok vs => forallb nonneg_or_nan vs = true
     | Raise e => e = RuntimeError
     end).
Proof.
  split; [| split].
  - intros [o d] p. unfold squared_distance. cbn [origin direction].
    destruct (elementwise s_sub p o) as [diff|e] eqn:E1; cbn [rbind];
      [| exact (elementwise_raise _ _ _ E1)].
    destruct (elementwise s_sub diff d) as [dd|e] eqn:E2; cbn [rbind];
      [| exact (elementwise_raise _ _ _ E2)].
    destruct (inner dd diff) as [s|e] eqn:E3; cbn [rbind];
      [| exact (inner_raise _ _ E3)].
    apply squared_norm_nonneg_or_nan.
  - intros l p Hd Hp. unfold squared_distance.
    rewrite (elementwise_same _ _ _ Hp). cbn [rbind].
    assert (Hdiff : length (zip_with s_sub p (origin l))
                    = length (direction l))
      by (rewrite zip_with_length; congruence).
    rewrite (elementwise_same _ _ _ Hdiff). cbn [rbind].
    rewrite inner_same by (apply zip_with_length; exact Hdiff). cbn [rbind].
    eexists. split; [reflexivity | apply squared_norm_nonneg_or_nan].
  - intros [o d] p. unfold Batch.squared_distance. cbn [origin direction].
    destruct (elementwise2 s_sub p o) as [diff|e] eqn:E1; cbn [rbind];
      [| exact (elementwise2_raise _ _ _ E1)].
    destruct (elementwise2 s_sub diff d) as [dd|e] eqn:E2; cbn [rbind];
      [| exact (elementwise2_raise _ _ _ E2)].
    destruct (inner2 dd diff) as [s|e] eqn:E3; cbn [rbind];
      [| exact (inner2_raise _ _ E3)].
    destruct (elementwise2 s_mul s d) as [sd|e] eqn:E4; cbn [rbind];
      [| exact (elementwise2_raise _ _ _ E4)].
    apply forallb_forall. intros v Hv. apply in_map_iff in Hv.
    destruct Hv as (row & <- & _). apply squared_norm_nonneg_or_nan.
Qed.

(** C8 (counterexample): on the line of origin (0,0) and direction (1,0),
    at the finite point (1e200, 0), the inner product overflows to infinity,
    its product with the entry 0 of the direction is NaN, and
    [squared_distance] returns NaN, which is not at least 0. *)
Lemma squared_distance_overflow_is_nan :
  let l := mkLine 1 [0; 0]%float [1; 0]%float in
  let p := [0x1.4e718d7d7625ap+664; 0]%float in
  forallb PrimFloat.is_finite (p ++ origin l ++ direction l) = true /\
  inner (zip_with PrimFloat.sub p (direction l)) p = Ok infinity /\
  squared_distance l p = Ok nan /\
  PrimFloat.leb 0 nan = false.
Proof. repeat split; vm_compute; reflexivity. Qed.

(** ** ParametrizedLine on batched lines *)

(** X14: on a batch of [b >= 1] lines in dimension [d] with [b <> d], with a
    batch of [b] query points, [projection] raises: the matrix product of the
    (b, d) direction with the (b, d) difference is not defined. *)
Theorem projection_batched_raises {T : Type} `{Scalar T} (b d : nat)
    (l : ParametrizedLine T 2) (p : arr T 2) :
  1 <= b -> b <> d ->
  mat b d (origin l) -> mat b d (direction l) -> mat b d p ->
  Batch.projection l p = Raise RuntimeError.
Proof.
  intros Hb Hbd Ho Hd Hp. unfold Batch.projection.
  rewrite (elementwise2_same _ Hp Ho). cbn [rbind].
  unfold matmul2, mm_compatible. cbn [fst snd].
  destruct Hd as [Hld Hd]. destruct Hp as [Hlp _]. destruct Ho as [Hlo _].
  destruct (direction l) as [|r rs]; [simpl in Hld; lia|].
  apply Forall_cons_iff in Hd as [Hr _].
  cbn [forallb].
  replace (length r =? _) with false; [reflexivity|].
  symmetry. apply Nat.eqb_neq.
  rewrite zip_with_length by (transitivity b; [exact Hlp | symmetry; exact Hlo]).
  intros E. apply Hbd. transitivity (length p); [symmetry; exact Hlp|].
  rewrite <- E. exact Hr.
Qed.

Lemma projection_batched_raises_witness :
  Batch.projection
    (mkLine 2 [[0; 0]; [0; 0]; [0; 0]]%float [[1; 0]; [0; 1]; [1; 0]]%float)
    [[3; 4]; [5; 6]; [7; 8]]%float
    = Raise RuntimeError.
Proof.
  apply (@projection_batched_raises float Scalar_float 3 2
           (mkLine 2 [[0; 0]; [0; 0]; [0; 0]]%float
                     [[1; 0]; [0; 1]; [1; 0]]%float)
           [[3; 4]; [5; 6]; [7; 8]]%float).
  - lia.
  - lia.
  - split; [reflexivity | repeat constructor].
  - split; [reflexivity | repeat constructor].
  - split; [reflexivity | repeat constructor].
Defined.

(** C6: on a batched line the source's [@] is the matrix product of the
    (B, D) direction with the (B, D) difference.  On the batch of the two
    lines through the origin with the unit directions (0,1) and (1,0), the
    points (1,2) and (3,4) are sent to (0,4) and (1,0), and these to (0,0)
    and (0,0): projecting twice is not projecting once.  The two lines taken
    one at a time send the points to (0,2) and (3,0).  On a batch of one
    line in dimension 2 the call raises. *)
Theorem projection_of_batched_line :
  let l := mkLine 2 [[0; 0]; [0; 0]]%float [[0; 1]; [1; 0]]%float in
  map norm2 (direction l) = [1; 1]%float /\
  Batch.projection l [[1; 2]; [3; 4]]%float = Ok [[0; 4]; [1; 0]]%float /\
  Batch.projection l [[0; 4]; [1; 0]]%float = Ok [[0; 0]; [0; 0]]%float /\
  projection (mkLine 1 [0; 0]%float [0; 1]%float) [1; 2]%float
    = Ok [0; 2]%float /\
  projection (mkLine 1 [0; 0]%float [1; 0]%float) [3; 4]%float
    = Ok [3; 0]%float /\
  Batch.projection (mkLine 2 [[0; 0]]%float [[1; 0]]%float) [[3; 4]]%float
    = Raise RuntimeError.
Proof. repeat split; vm_compute; reflexivity. Qed.

(** ** dim *)

(** [dim] returns the size of the first axis of the direction. *)
Lemma dim_first_axis (T : Type) (r : nat) (l : ParametrizedLine T (S r)) :
  dim l = Ok (hd 0 (shape T (S r) (direction l))).
Proof. reflexivity. Qed.

(** C9: on a batched line whose direction has shape (3, 2), [dim] returns the
    batch size 3, not the dimensionality 2; on an unbatched direction of 2
    entries it returns 2. *)
Theorem dim_of_batched_line :
  let l := mkLine 2 [[0; 0]; [0; 0]; [0; 0]]%R [[1; 0]; [0; 1]; [1; 0]]%R in
  shape R 2 (direction l) = [3; 2] /\
  dim l = Ok 3 /\
  dim (mkLine 1 [0; 0]%R [1; 0]%R) = Ok 2.
Proof. repeat split. Qed.

(* ------------------------------------------------------------------ *)
(** ** Shapes of the intermediate tensors of fit_line *)

Section Shapes.
Context {T : Type} `{Scalar T}.

Lemma has_shape_vec (m : nat) (row : arr T 1) :
  has_shape T 1 [m] row <-> length row = m.
Proof.
  simpl. split; [tauto|]. intros Hl. split; [exact Hl|].
  apply Forall_forall. reflexivity.
Qed.

Lemma has_shape_mat (n m : nat) (a : arr T 2) :
  has_shape T 2 [n; m] a <-> mat n m a.
Proof.
  unfold mat. change (has_shape T 2 [n; m] a)
    with (length a = n /\ Forall (has_shape T 1 [m]) a).
  split; intros [Hl Hf]; (split; [exact Hl|]);
    (eapply Forall_impl; [|exact Hf]); intros row; apply has_shape_vec.
Qed.

Lemma has_shape_batch (b n m : nat) (x : arr T 3) :
  has_shape T 3 [b; n; m] x <-> length x = b /\ Forall (mat n m) x.
Proof.
  change (has_shape T 3 [b; n; m] x)
    with (length x = b /\ Forall (has_shape T 2 [n; m]) x).
  split; intros [Hl Hf]; (split; [exact Hl|]);
    (eapply Forall_impl; [|exact Hf]); intros a; apply has_shape_mat.
Qed.

Lemma zip_with_Forall {A B C : Type} (P : A -> Prop) (Q : B -> Prop)
    (R : C -> Prop) (f : A -> B -> C) (xs : list A) (ys : list B) :
  (forall a b, P a -> Q b -> R (f a b)) ->
  Forall P xs -> Forall Q ys -> Forall R (zip_with f xs ys).
Proof.
  intros Hf Hx. revert ys. induction Hx as [|x xs Px Hx IH];
    intros ys Hy; [constructor|].
  destruct Hy as [|y ys Qy Hy]; simpl; constructor; auto.
Qed.

Lemma combine_forallb {A B : Type} (P : A -> Prop) (Q : B -> Prop)
    (g : A * B -> bool) (xs : list A) (ys : list B) :
  (forall a b, P a -> Q b -> g (a, b) = true) ->
  Forall P xs -> Forall Q ys -> forallb g (combine xs ys) = true.
Proof.
  intros Hg Hx. revert ys. induction Hx as [|x xs Px Hx IH];
    intros ys Hy; [reflexivity|].
  destruct Hy as [|y ys Qy Hy]; simpl; [reflexivity|].
  rewrite (Hg _ _ Px Qy). simpl. apply IH; exact Hy.
Qed.

Lemma col_sums_length (n m : nat) (rows : arr T 2) :
  1 <= n -> mat n m rows -> length (col_sums rows) = m.
Proof.
  intros Hn [Hl Hf]. destruct rows as [|r rs]; simpl in *; [lia|].
  apply Forall_cons_iff in Hf as [Hr Hrs]. clear Hl Hn.
  revert r Hr. induction Hrs as [|x rs Hx Hrs IH]; intros r Hr; simpl.
  - exact Hr.
  - apply IH. rewrite zip_with_length; congruence.
Qed.

Lemma centered_mat (n m : nat) (rows : arr T 2) :
  1 <= n -> mat n m rows -> mat n m (sub_rows rows (mean_rows rows)).
Proof.
  intros Hn Hm. pose proof (col_sums_length Hn Hm) as Hc.
  destruct Hm as [Hl Hf]. unfold mean_rows, sub_rows. split.
  - rewrite length_map. exact Hl.
  - apply Forall_map. eapply Forall_impl; [|exact Hf].
    intros row Hr. simpl. rewrite zip_with_length; [exact Hr|].
    rewrite length_map. congruence.
Qed.

Lemma mtranspose_mat (n m : nat) (a : arr T 2) :
  1 <= n -> mat n m a -> mat m n (mtranspose a).
Proof.
  intros Hn [Hl Hf]. destruct a as [|r rs]; simpl in Hl; [lia|].
  apply Forall_cons_iff in Hf as [Hr Hrs]. unfold mtranspose. split.
  - rewrite length_map, length_seq. exact Hr.
  - apply Forall_map, Forall_forall. intros j _.
    unfold column. rewrite length_map. exact Hl.
Qed.

Lemma diag_mat (w : list T) : mat (length w) (length w) (diag w).
Proof.
  unfold diag. split.
  - rewrite length_map, length_seq. reflexivity.
  - apply Forall_map, Forall_forall. intros i _.
    rewrite length_map, length_seq. reflexivity.
Qed.

Lemma mmul_mat (n k m : nat) (a b : arr T 2) :
  1 <= k -> mat n k a -> mat k m b -> mat n m (mmul a b).
Proof.
  intros Hk [Hl Hf] Hb. destruct (mtranspose_mat Hk Hb) as [Ht _].
  unfold mmul. split.
  - rewrite length_map. exact Hl.
  - apply Forall_map, Forall_forall. intros row _.
    rewrite length_map. exact Ht.
Qed.

Lemma mm_compatible_mat (n k m : nat) (a b : arr T 2) :
  mat n k a -> mat k m b -> mm_compatible (a, b) = true.
Proof.
  intros [_ Hf] [Hl _]. unfold mm_compatible. simpl.
  apply forallb_forall. intros row Hin.
  rewrite Forall_forall in Hf. rewrite (Hf row Hin), Hl.
  apply Nat.eqb_refl.
Qed.

Lemma centered_batch (b n m : nat) (pts : arr T 3) :
  1 <= n -> length pts = b -> Forall (mat n m) pts ->
  length (centered pts) = b /\ Forall (mat n m) (centered pts).
Proof.
  intros Hn Hl Hf. unfold centered. split.
  - rewrite zip_with_length; rewrite ?length_map; auto.
  - clear Hl. induction Hf as [|a pts Ha Hf IH]; simpl; constructor.
    + apply centered_mat; assumption.
    + exact IH.
Qed.

End Shapes.

(* ------------------------------------------------------------------ *)
(** ** Runs of fit_line *)

Lemma shape_eqb_eq (s1 s2 : list nat) : shape_eqb s1 s2 = true <-> s1 = s2.
Proof.
  revert s2; induction s1 as [|a s1 IH]; intros [|b s2]; simpl;
    try (split; [discriminate | congruence]); [tauto|].
  rewrite andb_true_iff, Nat.eqb_eq, IH. split.
  - intros [-> ->]. reflexivity.
  - intros E. injection E as -> ->. auto.
Qed.

Section Runs.
Context {T : Type} `{Scalar T}.
Variable linalg_svd : arr T 3 -> result (arr T 3 * arr T 2 * arr T 3).

Lemma bind_ok {A B : Type} (c : M A) (k : A -> M B) (tr tr' : list op) (a : A) :
  c tr = (tr', Ok a) -> bind c k tr = k a tr'.
Proof. intros E. unfold bind. rewrite E. reflexivity. Qed.

Lemma bind_raise {A B : Type} (c : M A) (k : A -> M B) (tr tr' : list op)
    (e : exn) :
  c tr = (tr', Raise e) -> bind c k tr = (tr', Raise e).
Proof. intros E. unfold bind. rewrite E. reflexivity. Qed.

Lemma matmul_run (n k m : nat) (x y : arr T 3) (tr : list op) :
  length x = length y -> Forall (mat n k) x -> Forall (mat k m) y ->
  matmul x y tr = (tr ++ [OpMatmul], Ok (zip_with mmul x y)).
Proof.
  intros Hl Hx Hy. unfold matmul, bind, tick.
  rewrite Hl, Nat.eqb_refl.
  assert (Hc : forallb mm_compatible (combine x y) = true).
  { apply (combine_forallb (P := mat n k) (Q := mat k m)); auto.
    intros a b. apply mm_compatible_mat. }
  rewrite Hc. reflexivity.
Qed.

(** The two axes the source compares agree on rectangular arguments. *)
Lemma shape_prefix (b n m : nat) (pts : arr T 3) (ws : arr T 2) :
  has_shape T 3 [b; n; m] pts -> has_shape T 2 [b; n] ws ->
  firstn 2 (shape T 2 ws) = firstn 2 (shape T 3 pts).
Proof.
  intros Hp Hw. apply has_shape_batch in Hp as [Hb Hp].
  apply has_shape_mat in Hw as [Hbw Hw].
  destruct pts as [|a pts]; destruct ws as [|w ws]; simpl in *;
    try congruence.
  apply Forall_cons_iff in Hp as [[Ha _] _].
  apply Forall_cons_iff in Hw as [Hw _].
  destruct a; simpl in *; congruence.
Qed.

Lemma scatter_run_unweighted (n m : nat) (A : arr T 3) (tr : list op) :
  1 <= n -> Forall (mat n m) A ->
  scatter A None tr
    = (tr ++ [OpTranspose; OpMatmul], Ok (zip_with mmul (map mtranspose A) A)).
Proof.
  intros Hn HA. unfold scatter, transpose, ret.
  unfold bind at 1. unfold bind at 1. unfold tick.
  rewrite (matmul_run (n := m) (k := n) (m := m)).
  - rewrite <- app_assoc. reflexivity.
  - apply length_map.
  - apply Forall_map. eapply Forall_impl; [|exact HA].
    intros a. apply mtranspose_mat; exact Hn.
  - exact HA.
Qed.

Lemma scatter_run_weighted (b n m : nat) (A : arr T 3) (ws : arr T 2)
    (tr : list op) :
  1 <= n ->
  has_shape T 2 [b; n] ws ->
  length A = b -> Forall (mat n m) A ->
  scatter A (Some ws) tr
    = (tr ++ [OpTranspose; OpDiagEmbed; OpMatmul; OpMatmul],
       Ok (zip_with mmul (zip_with mmul (map mtranspose A) (map diag ws)) A)).
Proof.
  intros Hn Hw Hl HA. unfold scatter.
  unfold transpose, diag_embed, ret, tick.
  unfold bind at 1. unfold bind at 1. unfold bind at 1. unfold bind at 1.
  apply has_shape_mat in Hw as [Hbw Hw].
  assert (HAt : Forall (mat m n) (map mtranspose A)).
  { apply Forall_map. eapply Forall_impl; [|exact HA].
    intros a. apply mtranspose_mat; exact Hn. }
  assert (HW : Forall (mat n n) (map diag ws)).
  { apply Forall_map. eapply Forall_impl; [|exact Hw].
    intros w Hlw. simpl in Hlw. rewrite <- Hlw. apply diag_mat. }
  erewrite bind_ok;
    [| apply (matmul_run (n := m) (k := n) (m := n));
       [transitivity b; [rewrite length_map; exact Hl
                        | rewrite length_map; symmetry; exact Hbw]
       | exact HAt | exact HW]].
  rewrite (matmul_run (n := m) (k := n) (m := m)).
  - rewrite <- !app_assoc. reflexivity.
  - assert (Hlen : length (map mtranspose A) = length (map diag ws)).
    { transitivity b; [rewrite length_map; exact Hl
                      | rewrite length_map; symmetry; exact Hbw]. }
    rewrite (zip_with_length _ _ _ Hlen). apply length_map.
  - eapply zip_with_Forall; [| exact HAt | exact HW].
    intros a d Ha Hd. eapply mmul_mat; eauto.
  - exact HA.
Qed.

Lemma select_last0_run (b m : nat) (V : arr T 3) (tr : list op) :
  1 <= m -> has_shape T 3 [b; m; m] V ->
  select_last0 V tr = (tr ++ [OpSelect], Ok (map (map (hd s_zero)) V)) /\
  has_shape T 2 [b; m] (map (map (hd s_zero)) V).
Proof.
  intros Hm HV. apply has_shape_batch in HV as [Hb HV]. split.
  - unfold select_last0, bind, tick, ret.
    replace (forallb (forallb (fun row : list T => negb (length row =? 0))) V)
      with true; [reflexivity|].
    symmetry. apply forallb_forall. intros a Ha.
    rewrite Forall_forall in HV. destruct (HV a Ha) as [_ Hrows].
    apply forallb_forall. intros row Hrow.
    rewrite Forall_forall in Hrows. rewrite (Hrows row Hrow).
    destruct m; [lia | reflexivity].
  - apply has_shape_mat. split; [rewrite length_map; exact Hb|].
    apply Forall_map. eapply Forall_impl; [|exact HV].
    intros a [Ha _]. simpl. rewrite length_map. exact Ha.
Qed.

Variable other_ranks : pyobj T -> option (pyobj T) -> M (pyobj T).

(** On a tensor of rank 3 the mean and the centering come first, whatever
    the weights; then the branch on the weights, the decomposition and the
    selection. *)
Lemma fit_line_prefix (pts : arr T 3) (weights : option (pyobj T)) :
  run (fit_line linalg_svd other_ranks (PyTensor 3 pts) weights)
    = after_centering linalg_svd other_ranks pts (centered pts) weights
        [OpMean; OpSub].
Proof. reflexivity. Qed.

(** On rectangular points, and rectangular weights if any, the checks pass
    and the scatter matrix is decomposed. *)
Lemma after_centering_run (b n m : nat) (pts : arr T 3) (ws : option (arr T 2))
    (tr : list op) :
  1 <= n ->
  has_shape T 3 [b; n; m] pts ->
  match ws with Some w => has_shape T 2 [b; n] w | None => True end ->
  after_centering linalg_svd other_ranks pts (centered pts)
                  (option_map (PyTensor 2) ws) tr
    = decompose linalg_svd (scatter_matrix pts ws)
        (tr ++ match ws with
               | Some _ => [OpTranspose; OpDiagEmbed; OpMatmul; OpMatmul]
               | None => [OpTranspose; OpMatmul]
               end).
Proof.
  intros Hn Hp Hw.
  pose proof Hp as Hp'. apply has_shape_batch in Hp' as [Hb Hrows].
  destruct (centered_batch Hn Hb Hrows) as [HlA HA].
  unfold after_centering, scatter_matrix. cbv zeta.
  destruct ws as [w|].
  - assert (Hchk : shape_eqb (firstn 2 (shape T 3 pts))
                             (firstn 2 (py_shape (PyTensor 2 w))) = true).
    { apply shape_eqb_eq. symmetry. exact (shape_prefix Hp Hw). }
    unfold KORNIA_CHECK_IS_TENSOR, KORNIA_CHECK_SHAPE, KORNIA_CHECK.
    unfold option_map. cbv beta iota.
    match goal with
    | |- context [shape_eqb ?x ?y] =>
        replace (shape_eqb x y) with true by (symmetry; exact Hchk)
    end.
    unfold bind at 1. unfold ret at 1.
    unfold bind at 1. unfold ret at 1.
    unfold bind at 1. unfold ret at 1.
    pose proof (scatter_run_weighted tr Hn Hw HlA HA) as Hs.
    erewrite bind_ok; [| exact Hs]. reflexivity.
  - unfold option_map. cbv beta iota.
    pose proof (scatter_run_unweighted tr Hn HA) as Hs.
    erewrite bind_ok; [| exact Hs]. reflexivity.
Qed.

Lemma decompose_run (b m : nat) (A : arr T 3) (tr : list op)
    (U : arr T 3) (Sg : arr T 2) (Vh : arr T 3) :
  1 <= m ->
  linalg_svd A = Ok (U, Sg, Vh) ->
  has_shape T 3 [b; m; m] Vh ->
  decompose linalg_svd A tr
    = (tr ++ [OpSvd; OpSelect], Ok (PyTensor 2 (map (map (hd s_zero)) Vh))) /\
  has_shape T 2 [b; m] (map (map (hd s_zero)) Vh).
Proof.
  intros Hm Hsvd HV.
  destruct (select_last0_run (tr ++ [OpSvd]) Hm HV) as [Hsel Hshape].
  split; [| exact Hshape].
  unfold decompose, svd.
  unfold bind at 1. unfold bind at 1. unfold tick at 1.
  rewrite Hsvd. unfold ret at 1. cbn [snd].
  erewrite bind_ok; [| exact Hsel].
  unfold ret. rewrite <- app_assoc. reflexivity.
Qed.

(** On rectangular points of shape (b, n, m) with [n, m >= 1], with no
    weights or rectangular weights of shape (b, n), whatever their values,
    [fit_line] performs every operation and returns [Vh[..., 0]], of shape
    (b, m), when the decomposition returns [Vh] of shape (b, m, m). *)
Lemma fit_line_run (b n m : nat) (pts : arr T 3) (ws : option (arr T 2))
    (U : arr T 3) (Sg : arr T 2) (Vh : arr T 3) :
  1 <= n -> 1 <= m ->
  has_shape T 3 [b; n; m] pts ->
  match ws with Some w => has_shape T 2 [b; n] w | None => True end ->
  linalg_svd (scatter_matrix pts ws) = Ok (U, Sg, Vh) ->
  has_shape T 3 [b; m; m] Vh ->
  run (fit_line linalg_svd other_ranks (PyTensor 3 pts)
         (option_map (PyTensor 2) ws))
    = (full_trace (match ws with Some _ => true | None => false end),
       Ok (PyTensor 2 (map (map (hd s_zero)) Vh))) /\
  has_shape T 2 [b; m] (map (map (hd s_zero)) Vh).
Proof.
  intros Hn Hm Hp Hw Hsvd HV.
  rewrite fit_line_prefix, (@after_centering_run b n m pts ws _ Hn Hp Hw).
  destruct (decompose_run
              ([OpMean; OpSub] ++
               match ws with
               | Some _ => [OpTranspose; OpDiagEmbed; OpMatmul; OpMatmul]
               | None => [OpTranspose; OpMatmul]
               end) Hm Hsvd HV) as [Hd Hshape].
  split; [| exact Hshape]. rewrite Hd. destruct ws; reflexivity.
Qed.

(** With the same arguments, an error of the decomposition is the error of
    [fit_line], raised after every operation up to the decomposition. *)
Lemma fit_line_svd_raises (b n m : nat) (pts : arr T 3) (ws : option (arr T 2))
    (e : exn) :
  1 <= n ->
  has_shape T 3 [b; n; m] pts ->
  match ws with Some w => has_shape T 2 [b; n] w | None => True end ->
  linalg_svd (scatter_matrix pts ws) = Raise e ->
  run (fit_line linalg_svd other_ranks (PyTensor 3 pts)
         (option_map (PyTensor 2) ws))
    = (match ws with
       | Some _ => [OpMean; OpSub; OpTranspose; OpDiagEmbed; OpMatmul; OpMatmul;
                    OpSvd]
       | None => [OpMean; OpSub; OpTranspose; OpMatmul; OpSvd]
       end, Raise e).
Proof.
  intros Hn Hp Hw Hsvd.
  rewrite fit_line_prefix, (@after_centering_run b n m pts ws _ Hn Hp Hw).
  unfold decompose, svd.
  unfold bind at 1. unfold bind at 1. unfold tick at 1.
  rewrite Hsvd. destruct ws; reflexivity.
Qed.

(** On rectangular arguments the outcome of [fit_line] is that of the
    decomposition and the selection on the scatter matrix. *)
Lemma fit_line_outcome (b n m : nat) (pts : arr T 3) (ws : option (arr T 2)) :
  1 <= n ->
  has_shape T 3 [b; n; m] pts ->
  match ws with Some w => has_shape T 2 [b; n] w | None => True end ->
  snd (run (fit_line linalg_svd other_ranks (PyTensor 3 pts)
              (option_map (PyTensor 2) ws)))
    = decompose_and_select linalg_svd (scatter_matrix pts ws).
Proof.
  intros Hn Hp Hw.
  rewrite fit_line_prefix, (@after_centering_run b n m pts ws _ Hn Hp Hw).
  unfold decompose, decompose_and_select, svd, select_last0, bind, tick, ret,
    raise.
  destruct (linalg_svd _) as [[[U Sg] Vh]|e]; [|reflexivity].
  cbn [snd]. destruct (forallb _ Vh); reflexivity.
Qed.

End Runs.

(* ------------------------------------------------------------------ *)
(** ** Validation in fit_line *)

Section Validation.
Context {T : Type} `{Scalar T}.
Variable linalg_svd : arr T 3 -> result (arr T 3 * arr T 2 * arr T 3).
Local Open Scope trace_scope.

Variable other_ranks : pyobj T -> option (pyobj T) -> M (pyobj T).

(** Weights that are not a tensor, or whose first two axes are not those of
    the points, are rejected by the checks of lines 154 to 156. *)
Lemma weights_rejected (pts A : arr T 3) (w : pyobj T) (tr : list op) :
  ~ weights_pass pts w ->
  exists e,
    after_centering linalg_svd other_ranks pts A (Some w) tr = (tr, Raise e) /\
    is_validation_error e = true.
Proof.
  intros Hbad. destruct w as [r a|]; unfold after_centering.
  - destruct (shape_eqb (firstn 2 (shape T 3 pts))
                        (firstn 2 (py_shape (PyTensor r a)))) eqn:E.
    + exfalso. apply Hbad. apply shape_eqb_eq in E. symmetry. exact E.
    + exists CheckError. split; [| reflexivity].
      unfold KORNIA_CHECK_IS_TENSOR, KORNIA_CHECK_SHAPE, KORNIA_CHECK.
      unfold bind at 1. unfold ret at 1.
      unfold bind at 1. unfold ret at 1.
      reflexivity.
  - eexists. split; reflexivity.
Qed.

(** Weights that are a tensor with the first two axes of the points pass the
    three checks, whatever their rank: with a rank other than 2 the call goes
    on to the tensor operations, outside the checks. *)
Lemma weights_checks_pass (pts A : arr T 3) (r : nat) (a : arr T r)
    (tr : list op) :
  r <> 2 ->
  weights_pass pts (PyTensor r a) ->
  after_centering linalg_svd other_ranks pts A (Some (PyTensor r a)) tr
    = other_ranks (PyTensor 3 pts) (Some (PyTensor r a)) tr.
Proof.
  intros Hr Hok.
  assert (E : shape_eqb (firstn 2 (shape T 3 pts))
                        (firstn 2 (py_shape (PyTensor r a))) = true).
  { apply shape_eqb_eq. symmetry. exact Hok. }
  unfold after_centering.
  unfold KORNIA_CHECK_IS_TENSOR, KORNIA_CHECK_SHAPE, KORNIA_CHECK.
  unfold bind at 1. unfold ret at 1.
  unfold bind at 1. unfold ret at 1.
  unfold bind at 1.
  match goal with
  | |- context [shape_eqb ?x ?y] =>
      replace (shape_eqb x y) with true by (symmetry; exact E)
  end.
  unfold ret at 1.
  destruct r as [|[|[|r']]]; try reflexivity. contradiction Hr. reflexivity.
Qed.

End Validation.

(** C3 (amended): when [weights] is given and is not a tensor, or its first
    two axes differ from those of the rank-3 [points] (a tensor of rank 0 or
    1 has no such axes), [fit_line] raises a validation error; at that point
    the mean and the centering of the points have been computed, and no
    transpose, [diag_embed], matrix product or decomposition. *)
Theorem fit_line_rejects_invalid_weights (T : Type) (ST : Scalar T)
    (linalg_svd : arr T 3 -> result (arr T 3 * arr T 2 * arr T 3))
    (other_ranks : pyobj T -> option (pyobj T) -> M (pyobj T))
    (pts : arr T 3) (w : pyobj T) :
  ~ weights_pass pts w ->
  exists e, run (fit_line linalg_svd other_ranks (PyTensor 3 pts) (Some w))
              = ([OpMean; OpSub], Raise e) /\
            is_validation_error e = true.
Proof.
  intros Hbad. rewrite fit_line_prefix.
  exact (@weights_rejected T ST linalg_svd other_ranks pts (centered pts) w
           [OpMean; OpSub] Hbad).
Qed.

Lemma fit_line_rejects_invalid_weights_witness :
  exists e, run (fit_line (fun A => Ok (A, [], A)) (fun _ _ => raise IndexError)
                   (PyTensor 3 [[[-1; -1]; [1; 1]; [3; 4]]]%float)
                   (Some (PyTensor 2 [[1; 2]]%float)))
              = ([OpMean; OpSub], Raise e) /\
            is_validation_error e = true.
Proof.
  apply (@fit_line_rejects_invalid_weights float Scalar_float
           (fun A => Ok (A, [], A)) (fun _ _ => raise IndexError)
           [[[-1; -1]; [1; 1]; [3; 4]]]%float (PyTensor 2 [[1; 2]]%float)).
  simpl. intros E. discriminate E.
Defined.

(** C3 (counterexample): weights with two entries for three points are
    rejected only after the mean and the centering of the points. *)
Lemma fit_line_centers_before_weights_check :
  run (fit_line (fun A => Ok (A, [], A)) (fun _ _ => raise IndexError)
         (PyTensor 3 [[[-1; -1]; [1; 1]; [3; 4]]]%float)
         (Some (PyTensor 2 [[1; 2]]%float)))
    = ([OpMean; OpSub], Raise CheckError) /\
  run (fit_line (fun A => Ok (A, [], A)) (fun _ _ => raise IndexError)
         (PyTensor 3 [[[-1; -1]; [1; 1]; [3; 4]]]%float)
         (Some PyOther))
    = ([OpMean; OpSub], Raise (TypeError "weights must be a tensor")).
Proof. split; vm_compute; reflexivity. Qed.

(** A weights tensor of a rank other than 2 (3 or more) whose first two axes
    are those of the points is not rejected: after the mean and the centering
    the three checks pass and the call goes on to the tensor operations. *)
Lemma fit_line_weights_of_other_rank (T : Type) (ST : Scalar T)
    (linalg_svd : arr T 3 -> result (arr T 3 * arr T 2 * arr T 3))
    (other_ranks : pyobj T -> option (pyobj T) -> M (pyobj T))
    (pts : arr T 3) (r : nat) (a : arr T r) :
  r <> 2 ->
  weights_pass pts (PyTensor r a) ->
  run (fit_line linalg_svd other_ranks (PyTensor 3 pts) (Some (PyTensor r a)))
    = other_ranks (PyTensor 3 pts) (Some (PyTensor r a)) [OpMean; OpSub].
Proof.
  intros Hr Hok. rewrite fit_line_prefix.
  exact (@weights_checks_pass T ST linalg_svd other_ranks pts (centered pts)
           r a [OpMean; OpSub] Hr Hok).
Qed.

(** C10: [fit_line] checks the weights for being a tensor with the first
    two axes of the points, and nothing else: on rectangular points
    (b, n, m) and weights (b, n) with any entries whatever (the scalar type
    is arbitrary, binary64 floats with NaN and infinities included), every
    check passes, every operation is performed and a tensor of shape (b, m)
    is returned, when the decomposition returns [Vh] of shape (b, m, m). *)
Theorem fit_line_accepts_any_weight_values (T : Type) (ST : Scalar T)
    (linalg_svd : arr T 3 -> result (arr T 3 * arr T 2 * arr T 3))
    (other_ranks : pyobj T -> option (pyobj T) -> M (pyobj T))
    (b n m : nat) (pts : arr T 3) (ws : arr T 2)
    (U : arr T 3) (Sg : arr T 2) (Vh : arr T 3) :
  1 <= n -> 1 <= m ->
  has_shape T 3 [b; n; m] pts ->
  has_shape T 2 [b; n] ws ->
  linalg_svd (scatter_matrix pts (Some ws)) = Ok (U, Sg, Vh) ->
  has_shape T 3 [b; m; m] Vh ->
  exists L, run (fit_line linalg_svd other_ranks (PyTensor 3 pts)
                   (Some (PyTensor 2 ws)))
              = (full_trace true, Ok (PyTensor 2 L)) /\
            has_shape T 2 [b; m] L.
Proof.
  intros Hn Hm Hp Hw Hsvd HV.
  destruct (@fit_line_run T ST linalg_svd other_ranks b n m pts (Some ws)
              U Sg Vh Hn Hm Hp Hw Hsvd HV) as [Hr Hs].
  eexists. split; [exact Hr | exact Hs].
Qed.

Lemma fit_line_accepts_any_weight_values_witness :
  exists L, run (fit_line (fun A => Ok (A, [], A)) (fun _ _ => raise IndexError)
                   (PyTensor 3 [[[-1; -1]; [1; 1]; [3; 4]]]%float)
                   (Some (PyTensor 2 [[nan; -1; infinity]]%float)))
              = (full_trace true, Ok (PyTensor 2 L)) /\
            has_shape float 2 [1; 2] L.
Proof.
  apply (@fit_line_accepts_any_weight_values float Scalar_float
           (fun A => Ok (A, [], A)) (fun _ _ => raise IndexError) 1 3 2
           [[[-1; -1]; [1; 1]; [3; 4]]]%float [[nan; -1; infinity]]%float
           (scatter_matrix [[[-1; -1]; [1; 1]; [3; 4]]]%float
                           (Some [[nan; -1; infinity]]%float))
           []
           (scatter_matrix [[[-1; -1]; [1; 1]; [3; 4]]]%float
                           (Some [[nan; -1; infinity]]%float))).
  - lia.
  - lia.
  - simpl. repeat (split || constructor).
  - simpl. repeat (split || constructor).
  - reflexivity.
  - vm_compute. repeat (split || constructor).
Defined.

(* ------------------------------------------------------------------ *)
(** ** The rows returned by fit_line *)

Lemma scatter_matrix_shape {T : Type} `{Scalar T} (b n m : nat) (pts : arr T 3)
    (ws : option (arr T 2)) :
  1 <= n ->
  has_shape T 3 [b; n; m] pts ->
  match ws with Some w => has_shape T 2 [b; n] w | None => True end ->
  length (scatter_matrix pts ws) = b /\ Forall (mat m m) (scatter_matrix pts ws).
Proof.
  intros Hn Hp Hw. apply has_shape_batch in Hp as [Hb Hrows].
  destruct (centered_batch Hn Hb Hrows) as [HlA HA].
  assert (HAt : Forall (mat m n) (map mtranspose (centered pts))).
  { apply Forall_map. eapply Forall_impl; [|exact HA].
    intros a. apply mtranspose_mat; exact Hn. }
  assert (HlAt : length (map mtranspose (centered pts)) = b)
    by (rewrite length_map; exact HlA).
  unfold scatter_matrix. cbv zeta. destruct ws as [w|].
  - apply has_shape_mat in Hw as [Hbw Hw].
    assert (HW : Forall (mat n n) (map diag w)).
    { apply Forall_map. eapply Forall_impl; [|exact Hw].
      intros v Hv. simpl in Hv. rewrite <- Hv. apply diag_mat. }
    assert (HlW : length (map diag w) = b) by (rewrite length_map; exact Hbw).
    assert (Hl1 : length (zip_with mmul (map mtranspose (centered pts)) (map diag w)) = b).
    { rewrite zip_with_length; [exact HlAt|]. rewrite HlAt. symmetry. exact HlW. }
    split.
    + rewrite zip_with_length; [exact Hl1|]. rewrite Hl1. symmetry. exact HlA.
    + eapply zip_with_Forall; [| | exact HA].
      * intros a c Ha Hc. eapply mmul_mat; eauto.
      * eapply zip_with_Forall; [| exact HAt | exact HW].
        intros a d Ha Hd. eapply mmul_mat; eauto.
  - split.
    + rewrite zip_with_length; [exact HlAt|]. rewrite HlAt. symmetry. exact HlA.
    + eapply zip_with_Forall; [| exact HAt | exact HA].
      intros a c Ha Hc. eapply mmul_mat; eauto.
Qed.

Section UnitRows.
Local Open Scope R_scope.



End UnitRows.

(** Splits an equation between lists of known length into the equations
    between their entries. *)
Ltac list_eq :=
  repeat match goal with
         | |- (_ :: _) = (_ :: _) => apply f_equal2
         | |- [] = [] => reflexivity
         end.

Section UnitRowsWitness.
Local Open Scope R_scope.


End UnitRowsWitness.

(* ------------------------------------------------------------------ *)
(** ** The direction returned by fit_line on points of a line *)

Section FitOnLine.
Local Open Scope R_scope.

(** C1: [torch.linalg.svd] returns [Vh], whose rows are the singular
    vectors, and the source takes [Vh[..., 0]], its column 0.  On the two
    points (-1,-1) and (1,1) of the line through the origin with unit
    direction (r, r), [r = sqrt 2 / 2], the scatter matrix is
    [[2, 2], [2, 2]]; with the decomposition whose [Vh] has the rows
    (-r, -r) and (r, -r), [fit_line] returns (-r, r), orthogonal to the
    line, while row 0 of [Vh] is collinear with it. *)
Theorem fit_line_returns_column_of_Vh :
  let s := R_sqrt.sqrt 2 in
  let r := s / 2 in
  let l := mkLine 1 [0; 0] [r; r] in
  let pts := [[[-1; -1]; [1; 1]]] in
  let U := [[- r; r]; [- r; - r]] in
  let Sg := [4; 0] in
  let Vh := [[- r; - r]; [r; - r]] in
  norm2 (direction l) = 1 /\
  point_at l (- s) = Ok [-1; -1] /\
  point_at l s = Ok [1; 1] /\
  scatter_matrix pts None = [[[2; 2]; [2; 2]]] /\
  svd_contract [[[2; 2]; [2; 2]]] ([U], [Sg], [Vh]) /\
  run (fit_line (fun _ => Ok ([U], [Sg], [Vh])) (fun _ _ => raise IndexError)
         (PyTensor 3 pts) None)
    = (full_trace false, Ok (PyTensor 2 [[- r; r]])) /\
  inner [- r; r] (direction l) = Ok 0 /\
  inner (nth 0 Vh []) (direction l) = Ok (-1).
Proof.
  intros s r l pts U Sg Vh.
  assert (Hs : s * s = 2) by (apply sqrt_sqrt; lra).
  assert (Hr : r * r = / 2) by (unfold r; nra).
  assert (Hrs : r * s = 1) by (unfold r; nra).
  assert (HA : scatter_matrix (T := R) pts None = [[[2; 2]; [2; 2]]]).
  { unfold pts, scatter_matrix, centered, mean_rows, col_sums, sub_rows, mmul,
      mtranspose, column. simpl; real_ops. list_eq; field. }
  clearbody s. subst l pts U Sg Vh. clearbody r.
  split; [| split; [| split; [| split; [| split; [| split; [| split]]]]]].
  - unfold norm2, squared_norm; simpl; real_ops.
    replace (r * r + (r * r + 0)) with 1 by nra. apply sqrt_1.
  - rewrite point_at_value by reflexivity.
    unfold scale; simpl; real_ops. f_equal. list_eq; nra.
  - rewrite point_at_value by reflexivity.
    unfold scale; simpl; real_ops. f_equal. list_eq; nra.
  - exact HA.
  - unfold svd_contract. simpl length.
    split; [reflexivity|]. split; [reflexivity|]. split; [reflexivity|].
    intros i Hi. assert (i = 0)%nat as -> by lia. simpl nth.
    unfold is_svd. simpl length.
    split; [split; [reflexivity | repeat constructor]|].
    split; [reflexivity|].
    split; [split; [reflexivity | repeat constructor]|].
    unfold mmul, mtranspose, column, identity, diag. simpl; real_ops.
    split; [list_eq; nra|]. split; [list_eq; nra|]. split; [list_eq; nra|].
    split; [repeat constructor; lra|]. split; [split; [lra | exact I]|].
    list_eq; nra.
  - apply (@fit_line_run R Scalar_R
             (fun _ => Ok ([[[- r; r]; [- r; - r]]], [[4; 0]],
                           [[[- r; - r]; [r; - r]]]))
             (fun _ _ => raise IndexError)
             1%nat 2%nat 2%nat [[[-1; -1]; [1; 1]]] None
             [[[- r; r]; [- r; - r]]] [[4; 0]]
             [[[- r; - r]; [r; - r]]]); try lia;
      first [exact I | reflexivity | simpl; repeat (split || constructor)].
  - unfold inner; simpl; real_ops. f_equal. ring.
  - unfold inner; simpl; real_ops. f_equal. nra.
Qed.

End FitOnLine.

(* ------------------------------------------------------------------ *)
(** * Further properties of ParametrizedLine *)

Section LineGeometry.
Local Open Scope R_scope.

Lemma add_scale_zero (o d : list R) :
  length d = length o -> zip_with Rplus o (scale 0 d) = o.
Proof.
  unfold scale. revert d; induction o as [|a o IH]; intros [|b d] Hl;
    simpl in *; try discriminate; auto.
  real_ops. f_equal; [ring | apply IH; lia].
Qed.

Lemma add_sub_restore (p0 p1 : list R) :
  length p0 = length p1 -> zip_with Rplus p0 (zip_with Rminus p1 p0) = p1.
Proof.
  revert p1; induction p0 as [|a p0 IH]; intros [|b p1] Hl; simpl in *;
    try discriminate; auto.
  f_equal; [ring | apply IH; lia].
Qed.

Lemma scale_div_cancel (n : R) (d : list R) :
  n <> 0 -> scale n (map (fun a => a / n) d) = d.
Proof.
  intros Hn. unfold scale. rewrite map_map.
  rewrite <- (map_id d) at 2. apply map_ext.
  intros a; real_ops. field. exact Hn.
Qed.

(** X1: the line [through(p0, p1)] of two points of one size at distance at
    least [eps] passes through both: [point_at(0)] is [p0] and
    [point_at(|p1 - p0|)] is [p1]; its [dim()] is the size of the points. *)
Theorem through_passes_through_points (p0 p1 : list R) :
  length p0 = length p1 ->
  s_eps <= norm2 (zip_with Rminus p1 p0) ->
  exists l, through p0 p1 = Ok l /\
            point_at l 0 = Ok p0 /\
            point_at l (norm2 (zip_with Rminus p1 p0)) = Ok p1 /\
            dim l = Ok (length p0).
Proof.
  intros Hl Hn. unfold through.
  rewrite elementwise_same by congruence.
  destruct (normalize_unit _ Hn) as [Hd _].
  assert (Hpos : 0 < norm2 (zip_with Rminus p1 p0)) by (real_ops; lra).
  assert (Hlen : length (normalize (zip_with s_sub p1 p0)) = length p0).
  { real_ops. rewrite Hd, length_map, zip_with_length; congruence. }
  eexists. split; [reflexivity|]. split; [| split].
  - rewrite point_at_value by exact Hlen.
    cbn [origin direction]. f_equal. apply add_scale_zero. exact Hlen.
  - rewrite point_at_value by exact Hlen.
    cbn [origin direction]; real_ops. rewrite Hd.
    rewrite scale_div_cancel by lra. f_equal. apply add_sub_restore. exact Hl.
  - unfold dim, len. cbn [direction]. f_equal. exact Hlen.
Qed.

Lemma through_passes_through_points_witness :
  exists l, through [0; 0] [1; 0] = Ok l /\
            point_at l 0 = Ok [0; 0] /\
            point_at l (norm2 (zip_with Rminus [1; 0] [0; 0])) = Ok [1; 0] /\
            dim l = Ok (length [0; 0]).
Proof.
  apply (through_passes_through_points [0; 0] [1; 0]).
  - reflexivity.
  - unfold norm2, squared_norm; simpl; real_ops.
    replace ((1 - 0) * (1 - 0) + ((0 - 0) * (0 - 0) + 0)) with 1 by ring.
    rewrite sqrt_1. lra.
Defined.

(** X2: whatever the norm of the direction, the projection of a point is the
    point of the line at the parameter [direction . (point - origin)]. *)
Theorem projection_is_point_at (l : ParametrizedLine R 1) (p : list R) :
  length (direction l) = length (origin l) ->
  length p = length (origin l) ->
  exists diff s q,
    elementwise Rminus p (origin l) = Ok diff /\
    inner (direction l) diff = Ok s /\
    projection l p = Ok q /\
    point_at l s = Ok q.
Proof.
  intros Hd Hp.
  exists (zip_with Rminus p (origin l)).
  exists (vsum (zip_with Rmult (direction l) (zip_with Rminus p (origin l)))).
  eexists. split; [apply elementwise_same; exact Hp|].
  split; [rewrite inner_same by (rewrite zip_with_length; congruence);
          reflexivity|].
  split; [apply projection_value; assumption|].
  apply point_at_value; assumption.
Qed.

Lemma projection_is_point_at_witness :
  exists diff s q,
    elementwise Rminus [/ 2; / 2] (origin (mkLine 1 [0; 0] [3; 0])) = Ok diff /\
    inner (direction (mkLine 1 [0; 0] [3; 0])) diff = Ok s /\
    projection (mkLine 1 [0; 0] [3; 0]) [/ 2; / 2] = Ok q /\
    point_at (mkLine 1 [0; 0] [3; 0]) s = Ok q.
Proof.
  apply (projection_is_point_at (mkLine 1 [0; 0] [3; 0]) [/ 2; / 2]);
    reflexivity.
Defined.

Lemma inner_residual (s : R) (d o p : list R) :
  length d = length o -> length p = length o ->
  vsum (zip_with Rmult d
          (zip_with Rminus p (zip_with Rplus o (scale s d))))
  = vsum (zip_with Rmult d (zip_with Rminus p o))
    - s * vsum (zip_with Rmult d d).
Proof.
  unfold scale. revert d p; induction o as [|a o IH];
    intros [|b d] [|c p] Hd Hp; simpl in *; try discriminate; real_ops.
  - ring.
  - rewrite IH by lia. ring.
Qed.

(** X3: on a line with a unit-norm direction the projection is orthogonal:
    the residual [point - projection(point)] has inner product 0 with the
    direction. *)
Theorem projection_residual_orthogonal (l : ParametrizedLine R 1) (p : list R) :
  length (direction l) = length (origin l) ->
  length p = length (origin l) ->
  norm2 (direction l) = 1 ->
  exists q r,
    projection l p = Ok q /\
    elementwise Rminus p q = Ok r /\
    inner (direction l) r = Ok 0.
Proof.
  intros Hd Hp Hn. apply unit_norm_squared in Hn.
  set (s := vsum (zip_with Rmult (direction l) (zip_with Rminus p (origin l)))).
  assert (Hq : length (zip_with Rplus (origin l) (scale s (direction l)))
               = length (origin l)).
  { rewrite zip_with_length; [reflexivity|].
    unfold scale. rewrite length_map. congruence. }
  exists (zip_with Rplus (origin l) (scale s (direction l))).
  exists (zip_with Rminus p (zip_with Rplus (origin l) (scale s (direction l)))).
  split; [apply projection_value; assumption|].
  split; [apply elementwise_same; congruence|].
  rewrite inner_same by (rewrite zip_with_length; congruence).
  real_ops. rewrite inner_residual by assumption.
  unfold squared_norm in Hn; real_ops. rewrite Hn. f_equal. unfold s. ring.
Qed.

Lemma projection_residual_orthogonal_witness :
  exists q r,
    projection (mkLine 1 [0; 0] [1; 0]) [/ 2; / 2] = Ok q /\
    elementwise Rminus [/ 2; / 2] q = Ok r /\
    inner (direction (mkLine 1 [0; 0] [1; 0])) r = Ok 0.
Proof.
  apply (projection_residual_orthogonal (mkLine 1 [0; 0] [1; 0]) [/ 2; / 2]).
  - reflexivity.
  - reflexivity.
  - unfold norm2, squared_norm; simpl; real_ops.
    replace (1 * 1 + (0 * 0 + 0)) with 1 by ring. apply sqrt_1.
Defined.

(** X4: on a line with a unit-norm direction, [squared_distance] at the
    point [point_at(t)] of the line is [(t * (t - 1))^2]: it vanishes at
    the origin ([t = 0]) and at [origin + direction] ([t = 1]) and at no
    other point of the line. *)
Theorem squared_distance_along_line (l : ParametrizedLine R 1) (t : R) :
  length (direction l) = length (origin l) ->
  norm2 (direction l) = 1 ->
  exists q v,
    point_at l t = Ok q /\
    squared_distance l q = Ok v /\
    v = (t * (t - 1)) * (t * (t - 1)) /\
    (v = 0 <-> t = 0 \/ t = 1).
Proof.
  intros Hd Hn.
  destruct (squared_distance_point_at l t Hd Hn) as [q [Hq Hv]].
  exists q, ((t * (t - 1)) * (t * (t - 1))).
  split; [exact Hq|]. split; [exact Hv|]. split; [reflexivity|].
  split.
  - intros Hz. apply Rmult_integral in Hz.
    assert (Hz' : t * (t - 1) = 0) by tauto.
    apply Rmult_integral in Hz'. destruct Hz' as [H0|H1]; [left | right]; lra.
  - intros [-> | ->]; ring.
Qed.

Lemma squared_distance_along_line_witness :
  exists q v,
    point_at (mkLine 1 [0; 0] [1; 0]) 2 = Ok q /\
    squared_distance (mkLine 1 [0; 0] [1; 0]) q = Ok v /\
    v = (2 * (2 - 1)) * (2 * (2 - 1)) /\
    (v = 0 <-> 2 = 0 \/ 2 = 1).
Proof.
  apply (squared_distance_along_line (mkLine 1 [0; 0] [1; 0]) 2).
  - reflexivity.
  - unfold norm2, squared_norm; simpl; real_ops.
    replace (1 * 1 + (0 * 0 + 0)) with 1 by ring. apply sqrt_1.
Defined.

(** X5: on a line and a point of one size, [distance] returns
    [|(diff - direction) . diff| * |direction|], which is non-negative and
    whose square is the value of [squared_distance]. *)
Theorem distance_value (l : ParametrizedLine R 1) (p : list R) :
  length (direction l) = length (origin l) ->
  length p = length (origin l) ->
  exists s v,
    inner (zip_with Rminus (zip_with Rminus p (origin l)) (direction l))
          (zip_with Rminus p (origin l)) = Ok s /\
    distance l p = Ok v /\
    v = Rabs s * norm2 (direction l) /\
    0 <= v /\
    squared_distance l p = Ok (v * v).
Proof.
  intros Hd Hp.
  assert (Hdiff : length (zip_with Rminus p (origin l)) = length (direction l))
    by (rewrite zip_with_length; congruence).
  set (diff := zip_with Rminus p (origin l)) in *.
  set (s := vsum (zip_with Rmult (zip_with Rminus diff (direction l)) diff)).
  pose proof (squared_norm_nonneg (direction l)) as Hnn.
  assert (Hv : R_sqrt.sqrt (s * s * squared_norm (direction l))
               = Rabs s * norm2 (direction l)).
  { rewrite sqrt_mult by nra. unfold norm2; real_ops. f_equal.
    change (s * s) with (Rsqr s). apply sqrt_Rsqr_abs. }
  exists s, (Rabs s * norm2 (direction l)).
  split; [rewrite inner_same by (rewrite zip_with_length; congruence);
          reflexivity|].
  split.
  { unfold distance. rewrite squared_distance_value by assumption.
    cbv zeta. fold diff. fold s. simpl; real_ops. f_equal. exact Hv. }
  split; [reflexivity|].
  split.
  { apply Rmult_le_pos; [apply Rabs_pos|]. unfold norm2; real_ops.
    apply sqrt_pos. }
  rewrite squared_distance_value by assumption. cbv zeta. fold diff. fold s.
  f_equal. rewrite <- Hv. rewrite sqrt_sqrt by nra. reflexivity.
Qed.

Lemma distance_value_witness :
  exists s v,
    inner (zip_with Rminus (zip_with Rminus [2; 0] (origin (mkLine 1 [0; 0] [1; 0])))
                    (direction (mkLine 1 [0; 0] [1; 0])))
          (zip_with Rminus [2; 0] (origin (mkLine 1 [0; 0] [1; 0]))) = Ok s /\
    distance (mkLine 1 [0; 0] [1; 0]) [2; 0] = Ok v /\
    v = Rabs s * norm2 (direction (mkLine 1 [0; 0] [1; 0])) /\
    0 <= v /\
    squared_distance (mkLine 1 [0; 0] [1; 0]) [2; 0] = Ok (v * v).
Proof.
  apply (distance_value (mkLine 1 [0; 0] [1; 0]) [2; 0]); reflexivity.
Defined.

End LineGeometry.

(* ------------------------------------------------------------------ *)
(** * Further properties of fit_line *)


(** X7: without weights, on rectangular points of shape (b, n, m) with
    [n, m >= 1], [fit_line] performs mean, centering, one transpose, one
    matrix product, the decomposition and the selection, in this order, with
    no [diag_embed], and returns a tensor of shape (b, m), when the
    decomposition returns [Vh] of shape (b, m, m). *)
Theorem fit_line_unweighted_run (T : Type) (ST : Scalar T)
    (linalg_svd : arr T 3 -> result (arr T 3 * arr T 2 * arr T 3))
    (other_ranks : pyobj T -> option (pyobj T) -> M (pyobj T))
    (b n m : nat) (pts : arr T 3)
    (U : arr T 3) (Sg : arr T 2) (Vh : arr T 3) :
  1 <= n -> 1 <= m ->
  has_shape T 3 [b; n; m] pts ->
  linalg_svd (scatter_matrix pts None) = Ok (U, Sg, Vh) ->
  has_shape T 3 [b; m; m] Vh ->
  exists L,
    run (fit_line linalg_svd other_ranks (PyTensor 3 pts) None)
      = ([OpMean; OpSub; OpTranspose; OpMatmul; OpSvd; OpSelect],
         Ok (PyTensor 2 L)) /\
    has_shape T 2 [b; m] L.
Proof.
  intros Hn Hm Hp Hsvd HV.
  destruct (@fit_line_run T ST linalg_svd other_ranks b n m pts None
              U Sg Vh Hn Hm Hp I Hsvd HV) as [Hr Hs].
  eexists. split; [exact Hr | exact Hs].
Qed.

Lemma fit_line_unweighted_run_witness :
  exists L,
    run (fit_line (fun A => Ok (A, [], A)) (fun _ _ => raise IndexError)
           (PyTensor 3 [[[-1; -1]; [1; 1]; [3; 4]]]%float) None)
      = ([OpMean; OpSub; OpTranspose; OpMatmul; OpSvd; OpSelect],
         Ok (PyTensor 2 L)) /\
    has_shape float 2 [1; 2] L.
Proof.
  apply (@fit_line_unweighted_run float Scalar_float
           (fun A => Ok (A, [], A)) (fun _ _ => raise IndexError) 1 3 2
           [[[-1; -1]; [1; 1]; [3; 4]]]%float
           (scatter_matrix [[[-1; -1]; [1; 1]; [3; 4]]]%float None)
           []
           (scatter_matrix [[[-1; -1]; [1; 1]; [3; 4]]]%float None)).
  - lia.
  - lia.
  - simpl. repeat (split || constructor).
  - reflexivity.
  - vm_compute. repeat (split || constructor).
Defined.

(** ** Algebra of the scatter matrix *)

Section ScatterAlgebra.
Local Open Scope R_scope.

Lemma nth_map_seq {A : Type} (f : nat -> A) (s n j : nat) (d : A) :
  (j < n)%nat -> nth j (map f (seq s n)) d = f (s + j)%nat.
Proof.
  intros Hj. rewrite (nth_indep _ d (f 0%nat))
    by (rewrite length_map, length_seq; exact Hj).
  rewrite map_nth, seq_nth by exact Hj. reflexivity.
Qed.

Lemma mtranspose_columns (G : arr R 2) :
  mtranspose G = map (fun j => column j G) (seq 0 (length (hd [] G))).
Proof. destruct G; reflexivity. Qed.

Lemma column_diag (w : list R) (j : nat) :
  (j < length w)%nat ->
  column j (diag w)
  = map (fun i => if (i =? j)%nat then nth j w 0 else 0) (seq 0 (length w)).
Proof.
  intros Hj. unfold column, diag. rewrite map_map. apply map_ext.
  intros i. rewrite nth_map_seq by exact Hj. simpl; real_ops.
  destruct (Nat.eqb_spec i j) as [->|]; reflexivity.
Qed.

Lemma dot_indicator (c : R) (j : nat) (row : list R) (s : nat) :
  vsum (zip_with Rmult row
          (map (fun i => if (i =? j)%nat then c else 0) (seq s (length row))))
  = if ((s <=? j) && (j <? s + length row))%nat
    then nth (j - s) row 0 * c else 0.
Proof.
  revert s. induction row as [|a row IH]; intros s; simpl; real_ops.
  - destruct ((s <=? j) && (j <? s + 0))%nat eqn:E; [|reflexivity].
    apply andb_true_iff in E as [E1 E2].
    apply Nat.leb_le in E1. apply Nat.ltb_lt in E2. lia.
  - rewrite IH.
    destruct (Nat.eqb_spec s j) as [->|Hne].
    + replace ((S j <=? j) && (j <? S j + length row))%nat with false
        by (symmetry; apply andb_false_iff; left; apply Nat.leb_gt; lia).
      replace ((j <=? j) && (j <? j + S (length row)))%nat with true
        by (symmetry; apply andb_true_iff; split;
            [apply Nat.leb_le | apply Nat.ltb_lt]; lia).
      rewrite Nat.sub_diag. simpl. ring.
    + destruct ((S s <=? j) && (j <? S s + length row))%nat eqn:E.
      * apply andb_true_iff in E as [E1 E2].
        apply Nat.leb_le in E1. apply Nat.ltb_lt in E2.
        replace ((s <=? j) && (j <? s + S (length row)))%nat with true
          by (symmetry; apply andb_true_iff; split;
              [apply Nat.leb_le | apply Nat.ltb_lt]; lia).
        replace (j - s)%nat with (S (j - S s)) by lia. simpl. ring.
      * replace ((s <=? j) && (j <? s + S (length row)))%nat with false.
        { ring. }
        symmetry. apply andb_false_iff.
        apply andb_false_iff in E as [E|E].
        -- left. apply Nat.leb_gt in E. apply Nat.leb_gt. lia.
        -- right. apply Nat.ltb_ge in E. apply Nat.ltb_ge. lia.
Qed.

Lemma map_nth_zip (row w : list R) :
  length row = length w ->
  map (fun j => nth j row 0 * nth j w 0) (seq 0 (length w)) = zip_with Rmult row w.
Proof.
  revert w. induction row as [|a row IH]; intros [|b w] Hl; simpl in *;
    try discriminate; [reflexivity|].
  f_equal. rewrite <- seq_shift, map_map. apply IH. lia.
Qed.

(** A product by a diagonal matrix on the right scales the columns. *)
Lemma mmul_diag (a : arr R 2) (w : list R) :
  (1 <= length w)%nat ->
  Forall (fun row => length row = length w) a ->
  mmul a (diag w) = map (fun row => zip_with Rmult row w) a.
Proof.
  intros Hw Ha. unfold mmul. rewrite mtranspose_columns.
  assert (Hhd : length (hd [] (diag w)) = length w).
  { unfold diag. destruct (length w) as [|n] eqn:E; [lia|].
    simpl. rewrite length_map, length_seq. reflexivity. }
  rewrite Hhd. apply map_ext_in. intros row Hin.
  rewrite Forall_forall in Ha. pose proof (Ha row Hin) as Hr.
  rewrite map_map.
  rewrite <- (map_nth_zip _ _ Hr). apply map_ext_in. intros j Hj.
  apply in_seq in Hj. rewrite column_diag by lia.
  rewrite <- Hr. rewrite dot_indicator.
  replace ((0 <=? j) && (j <? 0 + length row))%nat with true
    by (symmetry; apply andb_true_iff; split;
        [apply Nat.leb_le | apply Nat.ltb_lt]; lia).
  rewrite Nat.sub_0_r. reflexivity.
Qed.

Lemma zip_ones (row : list R) :
  zip_with Rmult row (repeat 1 (length row)) = row.
Proof.
  induction row as [|a row IH]; simpl; [reflexivity|].
  f_equal; [ring | exact IH].
Qed.

End ScatterAlgebra.

Section UnitWeights.
Local Open Scope R_scope.

Lemma mmul_diag_ones (n : nat) (a : arr R 2) :
  (1 <= n)%nat ->
  Forall (fun row => length row = n) a ->
  mmul a (diag (repeat 1 n)) = a.
Proof.
  intros Hn Ha.
  rewrite mmul_diag; rewrite ?repeat_length; [| exact Hn | exact Ha].
  rewrite <- (map_id a) at 2. apply map_ext_in. intros row Hin.
  rewrite Forall_forall in Ha. rewrite <- (Ha row Hin). apply zip_ones.
Qed.

Lemma scatter_unit_weights (b n m : nat) (pts : arr R 3) :
  (1 <= n)%nat ->
  has_shape R 3 [b; n; m] pts ->
  scatter_matrix pts (Some (repeat (repeat 1 n) b)) = scatter_matrix pts None.
Proof.
  intros Hn Hp. apply has_shape_batch in Hp as [Hb Hrows].
  destruct (centered_batch Hn Hb Hrows) as [HlA HA].
  unfold scatter_matrix. cbv zeta. f_equal.
  clear Hb Hrows. revert b HlA.
  induction HA as [|a A Ha HA IH]; intros b HlA; [reflexivity|].
  destruct b as [|b]; [discriminate HlA|]. simpl in *.
  f_equal.
  - apply mmul_diag_ones; [exact Hn|].
    destruct (mtranspose_mat Hn Ha) as [_ Hrows]. exact Hrows.
  - apply IH. lia.
Qed.

(** X8: weights all equal to 1 give the unweighted fit: on rectangular
    points of shape (b, n, m), [fit_line(points, torch.ones(b, n))] has the
    outcome of [fit_line(points)], whatever the decomposition does. *)
Theorem fit_line_unit_weights
    (linalg_svd : arr R 3 -> result (arr R 3 * arr R 2 * arr R 3))
    (other_ranks : pyobj R -> option (pyobj R) -> M (pyobj R))
    (b n m : nat) (pts : arr R 3) :
  (1 <= n)%nat ->
  has_shape R 3 [b; n; m] pts ->
  snd (run (fit_line linalg_svd other_ranks (PyTensor 3 pts)
              (Some (PyTensor 2 (repeat (repeat 1 n) b)))))
    = snd (run (fit_line linalg_svd other_ranks (PyTensor 3 pts) None)).
Proof.
  intros Hn Hp.
  assert (Hw : has_shape R 2 [b; n] (repeat (repeat 1 n) b)).
  { apply has_shape_mat. split; [apply repeat_length|].
    apply Forall_forall. intros row Hin.
    apply repeat_spec in Hin. subst row. apply repeat_length. }
  rewrite (fit_line_outcome linalg_svd other_ranks (Some (repeat (repeat 1 n) b)) Hn Hp Hw).
  rewrite (fit_line_outcome linalg_svd other_ranks None Hn Hp I).
  rewrite (scatter_unit_weights Hn Hp). reflexivity.
Qed.

Lemma fit_line_unit_weights_witness :
  snd (run (fit_line (fun A => Ok (A, [], A)) (fun _ _ => raise IndexError) (PyTensor 3 [[[0; 0]; [1; 0]]])
              (Some (PyTensor 2 (repeat (repeat 1 2%nat) 1%nat)))))
    = snd (run (fit_line (fun A => Ok (A, [], A)) (fun _ _ => raise IndexError)
                  (PyTensor 3 [[[0; 0]; [1; 0]]]) None)).
Proof.
  apply (@fit_line_unit_weights (fun A => Ok (A, [], A))
           (fun _ _ => raise IndexError) 1 2 2
           [[[0; 0]; [1; 0]]]).
  - lia.
  - simpl. repeat (split || constructor).
Defined.

End UnitWeights.

Section Symmetry.
Local Open Scope R_scope.

Lemma weighted_dot_comm (a w c : list R) :
  vsum (zip_with Rmult (zip_with Rmult a w) c)
  = vsum (zip_with Rmult (zip_with Rmult c w) a).
Proof.
  revert w c. induction a as [|x a IH]; intros [|y w] [|z c]; simpl;
    real_ops; try reflexivity.
  rewrite IH. ring.
Qed.

(** A matrix of entries [g i j] with [g] symmetric is its own transpose. *)
Lemma gram_symmetric (g : nat -> nat -> R) (m : nat) :
  (forall i j, g i j = g j i) ->
  mtranspose (map (fun i => map (g i) (seq 0 m)) (seq 0 m))
  = map (fun i => map (g i) (seq 0 m)) (seq 0 m).
Proof.
  intros Hg. rewrite mtranspose_columns.
  assert (Hhd : length (hd [] (map (fun i => map (g i) (seq 0 m)) (seq 0 m))) = m).
  { destruct m as [|m']; [reflexivity|].
    simpl. rewrite length_map, length_seq. reflexivity. }
  rewrite Hhd. apply map_ext_in. intros j Hj. apply in_seq in Hj.
  unfold column. rewrite map_map. apply map_ext_in. intros i Hi.
  rewrite nth_map_seq by lia. simpl. apply Hg.
Qed.

(** The weighted scatter matrix of one set of centered points [X]: the entry
    (i, j) is the sum over the points of [X[k][i] * w[k] * X[k][j]]. *)
Lemma scatter_gram (n m : nat) (X : arr R 2) (w : list R) :
  (1 <= n)%nat -> mat n m X -> length w = n ->
  mmul (mmul (mtranspose X) (diag w)) X
  = map (fun i => map (fun j => vsum (zip_with Rmult
                                         (zip_with Rmult (column i X) w)
                                         (column j X)))
                      (seq 0 m))
        (seq 0 m).
Proof.
  intros Hn HX Hw.
  destruct (mtranspose_mat Hn HX) as [_ Hrows].
  rewrite mmul_diag; [| lia | rewrite Hw; exact Hrows].
  assert (Hhd : length (hd [] X) = m).
  { destruct HX as [Hl Hf]. destruct X as [|r X]; simpl in *; [lia|].
    apply Forall_cons_iff in Hf as [Hr _]. exact Hr. }
  unfold mmul. rewrite !mtranspose_columns, Hhd, !map_map.
  apply map_ext. intros i. rewrite map_map. reflexivity.
Qed.

Lemma scatter_weighted_symmetric (n m : nat) (A : arr R 3) (W : arr R 2) :
  (1 <= n)%nat ->
  Forall (mat n m) A -> Forall (fun w => length w = n) W ->
  Forall (fun G => mtranspose G = G)
         (zip_with mmul (zip_with mmul (map mtranspose A) (map diag W)) A).
Proof.
  intros Hn HA. revert W. induction HA as [|X A HX HA IH]; intros W HW;
    [constructor|].
  destruct HW as [|w W Hw HW]; simpl; constructor.
  - rewrite (scatter_gram w Hn HX Hw). apply gram_symmetric.
    intros i j. apply weighted_dot_comm.
  - apply IH. exact HW.
Qed.

(** X9: the matrices [fit_line] hands to the decomposition are symmetric:
    on rectangular points (b, n, m), with or without rectangular weights
    (b, n), there is a batch [A] of [b] symmetric [m] by [m] matrices such
    that, whatever the decomposition, the outcome of [fit_line] is that of
    the decomposition and the selection on [A]. *)
Theorem fit_line_decomposes_symmetric
    (b n m : nat) (pts : arr R 3) (ws : option (arr R 2)) :
  (1 <= n)%nat ->
  has_shape R 3 [b; n; m] pts ->
  match ws with Some w => has_shape R 2 [b; n] w | None => True end ->
  exists A,
    has_shape R 3 [b; m; m] A /\
    Forall (fun G => mtranspose G = G) A /\
    forall linalg_svd other_ranks,
      snd (run (fit_line linalg_svd other_ranks (PyTensor 3 pts)
                  (option_map (PyTensor 2) ws)))
        = decompose_and_select linalg_svd A.
Proof.
  intros Hn Hp Hw. exists (scatter_matrix pts ws).
  destruct (scatter_matrix_shape ws Hn Hp Hw) as [HlA HmA].
  split; [apply has_shape_batch; split; assumption|].
  split; [| intros svd0 other0; apply (fit_line_outcome svd0 other0 ws Hn Hp Hw)].
  pose proof Hp as Hp'. apply has_shape_batch in Hp' as [Hb Hrows].
  destruct (centered_batch Hn Hb Hrows) as [_ HA].
  destruct ws as [w|].
  - apply has_shape_mat in Hw as [_ Hw].
    unfold scatter_matrix. cbv zeta.
    apply (scatter_weighted_symmetric Hn HA Hw).
  - rewrite <- (scatter_unit_weights Hn Hp).
    unfold scatter_matrix. cbv zeta.
    apply (scatter_weighted_symmetric Hn HA).
    apply Forall_forall. intros row Hin.
    apply repeat_spec in Hin. subst row. apply repeat_length.
Qed.

Lemma fit_line_decomposes_symmetric_witness :
  exists A,
    has_shape R 3 [1; 2; 2]%nat A /\
    Forall (fun G => mtranspose G = G) A /\
    forall linalg_svd other_ranks,
      snd (run (fit_line linalg_svd other_ranks (PyTensor 3 [[[0; 0]; [1; 3]]])
                  (option_map (PyTensor 2) (Some [[2; 5]]))))
        = decompose_and_select linalg_svd A.
Proof.
  apply (@fit_line_decomposes_symmetric 1 2 2 [[[0; 0]; [1; 3]]]
           (Some [[2; 5]])).
  - lia.
  - simpl. repeat (split || constructor).
  - simpl. repeat (split || constructor).
Defined.

End Symmetry.

Section Translation.
Local Open Scope R_scope.

Lemma add_translate_step (k : R) (c acc r : list R) :
  length acc = length c -> length r = length c ->
  zip_with Rplus (zip_with Rplus acc (scale k c)) (zip_with Rplus r c)
  = zip_with Rplus (zip_with Rplus acc r) (scale (k + 1) c).
Proof.
  unfold scale. revert acc r. induction c as [|x c IH];
    intros [|a acc] [|y r] Ha Hr; simpl in *; try discriminate;
    [reflexivity|].
  real_ops. f_equal; [ring | apply IH; lia].
Qed.

Lemma fold_add_translate (c : list R) (rs : arr R 2) (acc : list R) (k : R) :
  length acc = length c ->
  Forall (fun r => length r = length c) rs ->
  fold_left (zip_with Rplus) (map (fun r => zip_with Rplus r c) rs)
            (zip_with Rplus acc (scale k c))
  = zip_with Rplus (fold_left (zip_with Rplus) rs acc)
                   (scale (k + INR (length rs)) c).
Proof.
  intros Ha Hrs. revert acc k Ha.
  induction Hrs as [|r rs Hr Hrs IH]; intros acc k Ha.
  - simpl. rewrite Rplus_0_r. reflexivity.
  - cbn [map fold_left]. rewrite add_translate_step by assumption.
    rewrite IH by (rewrite zip_with_length; congruence).
    cbn [length]. rewrite S_INR.
    replace (k + 1 + INR (length rs)) with (k + (INR (length rs) + 1)) by ring.
    reflexivity.
Qed.

Lemma scale_one (c : list R) : scale 1 c = c.
Proof.
  unfold scale. rewrite <- (map_id c) at 2. apply map_ext.
  intros a; real_ops. ring.
Qed.

Lemma col_sums_translate (n m : nat) (c : list R) (rows : arr R 2) :
  (1 <= n)%nat -> mat n m rows -> length c = m ->
  col_sums (map (fun r => zip_with Rplus r c) rows)
  = zip_with Rplus (col_sums rows) (scale (INR n) c).
Proof.
  intros Hn [Hl Hf] Hc. destruct rows as [|r rs]; simpl in Hl; [lia|].
  apply Forall_cons_iff in Hf as [Hr Hrs].
  cbn [map col_sums]; real_ops.
  rewrite <- (scale_one c) at 1.
  rewrite fold_add_translate;
    [| congruence | eapply Forall_impl; [|exact Hrs]; simpl; congruence].
  rewrite <- Hl, S_INR. rewrite (Rplus_comm 1). reflexivity.
Qed.

Lemma mean_translate (k : R) (cs c : list R) :
  k <> 0 -> length cs = length c ->
  map (fun s => s / k) (zip_with Rplus cs (scale k c))
  = zip_with Rplus (map (fun s => s / k) cs) c.
Proof.
  intros Hk. unfold scale. revert c. induction cs as [|a cs IH];
    intros [|x c] Hl; simpl in *; try discriminate; [reflexivity|].
  real_ops. f_equal; [field; exact Hk | apply IH; lia].
Qed.

Lemma translate_cancel (c x mu : list R) :
  length x = length c -> length mu = length c ->
  zip_with Rminus (zip_with Rplus x c) (zip_with Rplus mu c)
  = zip_with Rminus x mu.
Proof.
  revert x mu. induction c as [|a c IH]; intros [|y x] [|z mu] Hx Hm;
    simpl in *; try discriminate; [reflexivity|].
  f_equal; [ring | apply IH; lia].
Qed.

(** Centering removes a translation of the points of one batch element. *)
Lemma centered_rows_translate (n m : nat) (c : list R) (rows : arr R 2) :
  (1 <= n)%nat -> mat n m rows -> length c = m ->
  sub_rows (map (fun r => zip_with Rplus r c) rows)
           (mean_rows (map (fun r => zip_with Rplus r c) rows))
  = sub_rows rows (mean_rows rows).
Proof.
  intros Hn Hm Hc. pose proof (col_sums_length Hn Hm) as Hcs.
  unfold mean_rows, sub_rows; real_ops.
  rewrite (col_sums_translate c Hn Hm Hc).
  rewrite length_map. destruct Hm as [Hl Hf]. rewrite Hl.
  rewrite mean_translate;
    [| apply not_0_INR; lia | congruence].
  rewrite map_map. apply map_ext_in. intros x Hin.
  rewrite Forall_forall in Hf.
  apply translate_cancel; [rewrite (Hf x Hin); congruence|].
  rewrite length_map. congruence.
Qed.

Lemma centered_translate (b n m : nat) (c : list R) (pts : arr R 3) :
  (1 <= n)%nat -> has_shape R 3 [b; n; m] pts -> length c = m ->
  centered (map (map (fun r => zip_with Rplus r c)) pts) = centered pts.
Proof.
  intros Hn Hp Hc. apply has_shape_batch in Hp as [_ Hrows].
  unfold centered. induction Hrows as [|rows pts Hr Hrows IH];
    [reflexivity|].
  cbn [map zip_with]. f_equal; [| exact IH].
  apply (centered_rows_translate c Hn Hr Hc).
Qed.

(** X10: the fit does not depend on where the points lie: adding one vector
    [c] to every point of a rectangular batch (b, n, m) leaves the outcome
    of [fit_line] unchanged, with or without weights, whatever the
    decomposition does. *)
Theorem fit_line_translation_invariant
    (linalg_svd : arr R 3 -> result (arr R 3 * arr R 2 * arr R 3))
    (other_ranks : pyobj R -> option (pyobj R) -> M (pyobj R))
    (b n m : nat) (pts : arr R 3) (ws : option (arr R 2)) (c : list R) :
  (1 <= n)%nat ->
  has_shape R 3 [b; n; m] pts ->
  match ws with Some w => has_shape R 2 [b; n] w | None => True end ->
  length c = m ->
  snd (run (fit_line linalg_svd other_ranks
              (PyTensor 3 (map (map (fun r => zip_with Rplus r c)) pts))
              (option_map (PyTensor 2) ws)))
    = snd (run (fit_line linalg_svd other_ranks (PyTensor 3 pts)
                  (option_map (PyTensor 2) ws))).
Proof.
  intros Hn Hp Hw Hc.
  assert (Hp' : has_shape R 3 [b; n; m]
                  (map (map (fun r => zip_with Rplus r c)) pts)).
  { apply has_shape_batch in Hp as [Hb Hrows]. apply has_shape_batch.
    split; [rewrite length_map; exact Hb|].
    apply Forall_map. eapply Forall_impl; [|exact Hrows].
    intros rows [Hl Hf]. split; [rewrite length_map; exact Hl|].
    apply Forall_map. eapply Forall_impl; [|exact Hf].
    intros r Hr. simpl. rewrite zip_with_length; congruence. }
  rewrite (fit_line_outcome linalg_svd other_ranks ws Hn Hp' Hw).
  rewrite (fit_line_outcome linalg_svd other_ranks ws Hn Hp Hw).
  unfold scatter_matrix. rewrite (centered_translate c Hn Hp Hc).
  reflexivity.
Qed.

Lemma fit_line_translation_invariant_witness :
  snd (run (fit_line (fun A => Ok (A, [], A)) (fun _ _ => raise IndexError)
              (PyTensor 3 (map (map (fun r => zip_with Rplus r [5; 7]))
                               [[[0; 0]; [1; 3]]]))
              (option_map (PyTensor 2) (Some [[2; 5]]))))
    = snd (run (fit_line (fun A => Ok (A, [], A)) (fun _ _ => raise IndexError)
                  (PyTensor 3 [[[0; 0]; [1; 3]]])
                  (option_map (PyTensor 2) (Some [[2; 5]])))).
Proof.
  apply (@fit_line_translation_invariant (fun A => Ok (A, [], A))
           (fun _ _ => raise IndexError) 1 2 2
           [[[0; 0]; [1; 3]]] (Some [[2; 5]]) [5; 7]).
  - lia.
  - simpl. repeat (split || constructor).
  - simpl. repeat (split || constructor).
  - reflexivity.
Defined.

End Translation.

Section IdenticalPoints.
Local Open Scope R_scope.

Lemma fold_add_repeat (x : list R) (k : nat) (a : R) :
  fold_left (zip_with Rplus) (repeat x k) (scale a x) = scale (a + INR k) x.
Proof.
  revert a. induction k as [|k IH]; intros a.
  - simpl. rewrite Rplus_0_r. reflexivity.
  - cbn [repeat fold_left].
    replace (zip_with Rplus (scale a x) x) with (scale (a + 1) x).
    + rewrite IH, S_INR. f_equal. ring.
    + unfold scale. clear. induction x as [|y x IHx]; simpl; [reflexivity|].
      real_ops. f_equal; [ring | exact IHx].
Qed.

(** The centered copies of one point are zero vectors. *)
Lemma centered_rows_identical (n : nat) (x : list R) :
  (1 <= n)%nat ->
  sub_rows (repeat x n) (mean_rows (repeat x n))
  = repeat (map (fun _ => 0) x) n.
Proof.
  intros Hn. destruct n as [|k]; [lia|].
  assert (Hmean : map (fun s => s / INR (S k))
                      (fold_left (zip_with Rplus) (repeat x k) x) = x).
  { rewrite <- (scale_one x) at 2. rewrite fold_add_repeat.
    replace (1 + INR k) with (INR (S k)) by (rewrite S_INR; ring).
    unfold scale. rewrite map_map. rewrite <- (map_id x) at 2.
    apply map_ext. intros a; real_ops. field. apply not_0_INR. lia. }
  unfold mean_rows, sub_rows. rewrite repeat_length.
  cbn [repeat col_sums]; real_ops. rewrite Hmean.
  change (x :: repeat x k) with (repeat x (S k)).
  rewrite map_repeat, sub_self. reflexivity.
Qed.

Lemma weighted_dot_zeros (n : nat) (w : list R) :
  vsum (zip_with Rmult (zip_with Rmult (repeat 0 n) w) (repeat 0 n)) = 0.
Proof.
  revert w. induction n as [|n IH]; intros [|y w]; simpl; real_ops;
    try reflexivity.
  rewrite IH. ring.
Qed.

Lemma column_zeros (i n : nat) (x : list R) :
  column i (repeat (map (fun _ => 0) x) n) = repeat 0 n.
Proof.
  unfold column. rewrite map_repeat. f_equal.
  revert i. induction x as [|a x IH]; intros [|i]; simpl; real_ops; auto.
Qed.

Lemma map_const_seq {A : Type} (a : A) (s n : nat) :
  map (fun _ => a) (seq s n) = repeat a n.
Proof.
  revert s. induction n as [|n IH]; intros s; simpl; [reflexivity|].
  f_equal. apply IH.
Qed.

Lemma scatter_identical (n m : nat) (xs : arr R 2) (W : arr R 2) :
  (1 <= n)%nat ->
  Forall (fun x => length x = m) xs ->
  Forall (fun w => length w = n) W ->
  length W = length xs ->
  scatter_matrix (map (fun x => repeat x n) xs) (Some W)
  = repeat (repeat (repeat 0 m) m) (length xs).
Proof.
  intros Hn Hxs. unfold scatter_matrix, centered. cbv zeta.
  revert W. induction Hxs as [|x xs Hx Hxs IH]; intros W HW Hl.
  - reflexivity.
  - destruct HW as [|w W Hw HW]; [discriminate Hl|].
    cbn [map zip_with length repeat].
    f_equal; [| apply IH; [exact HW | simpl in Hl; lia]].
    rewrite (centered_rows_identical x Hn).
    assert (HX : mat n m (repeat (map (fun _ => 0) x) n)).
    { split; [apply repeat_length|]. apply Forall_forall. intros r Hin.
      apply repeat_spec in Hin. subst r. rewrite length_map. exact Hx. }
    rewrite (scatter_gram w Hn HX Hw).
    rewrite <- (map_const_seq (repeat 0 m) 0 m). apply map_ext. intros i.
    rewrite <- (map_const_seq 0 0 m). apply map_ext. intros j.
    rewrite !column_zeros. apply weighted_dot_zeros.
Qed.

(** X11: when the [n >= 1] points of every batch element are one and the
    same point, the decomposition receives the zero matrix, with or without
    weights: the outcome of [fit_line] is that of the decomposition and the
    selection on [b] zero matrices of size [m] by [m]. *)
Theorem fit_line_identical_points
    (linalg_svd : arr R 3 -> result (arr R 3 * arr R 2 * arr R 3))
    (other_ranks : pyobj R -> option (pyobj R) -> M (pyobj R))
    (b n m : nat) (xs : arr R 2) (ws : option (arr R 2)) :
  (1 <= n)%nat ->
  has_shape R 2 [b; m] xs ->
  match ws with Some w => has_shape R 2 [b; n] w | None => True end ->
  snd (run (fit_line linalg_svd other_ranks (PyTensor 3 (map (fun x => repeat x n) xs))
              (option_map (PyTensor 2) ws)))
    = decompose_and_select linalg_svd (repeat (repeat (repeat 0 m) m) b).
Proof.
  intros Hn Hxs Hw. apply has_shape_mat in Hxs as [Hb Hxs]. subst b.
  assert (Hp : has_shape R 3 [length xs; n; m] (map (fun x => repeat x n) xs)).
  { apply has_shape_batch. split; [apply length_map|].
    apply Forall_map. eapply Forall_impl; [|exact Hxs].
    intros x Hx. split; [apply repeat_length|].
    apply Forall_forall. intros r Hin.
    apply repeat_spec in Hin. subst r. exact Hx. }
  rewrite (fit_line_outcome linalg_svd other_ranks ws Hn Hp Hw). f_equal.
  destruct ws as [w|].
  - apply has_shape_mat in Hw as [Hbw Hw].
    exact (scatter_identical Hn Hxs Hw Hbw).
  - rewrite <- (scatter_unit_weights Hn Hp).
    assert (HF : Forall (fun w : list R => length w = n)
                        (repeat (repeat 1 n) (length xs))).
    { apply Forall_forall. intros row Hin.
      apply repeat_spec in Hin. subst row. apply repeat_length. }
    exact (scatter_identical Hn Hxs HF (repeat_length _ _)).
Qed.

Lemma fit_line_identical_points_witness :
  snd (run (fit_line (fun A => Ok (A, [], A)) (fun _ _ => raise IndexError)
              (PyTensor 3 (map (fun x => repeat x 3%nat) [[4; 5]]))
              (option_map (PyTensor 2) None)))
    = decompose_and_select (fun A => Ok (A, [], A))
        (repeat (repeat (repeat 0 2%nat) 2%nat) 1%nat).
Proof.
  apply (@fit_line_identical_points (fun A => Ok (A, [], A))
           (fun _ _ => raise IndexError) 1 3 2
           [[4; 5]] None).
  - lia.
  - simpl. repeat (split || constructor).
  - exact I.
Defined.

End IdenticalPoints.
